(** * The photo curation pipeline of [scripts/photo_sort.py]

    A shallow embedding of the curation script: metadata extraction with its
    fallback chain, content fingerprints and deduplication, grouping by
    capture date, the two-tier ranked selection, and the copy/report step.

    Python [str] values are lists of characters; file names are taken as
    ASCII text.  The imaging, hashing and floating-point libraries the script
    calls are inputs of the model (see [World]). *)

From Stdlib Require Import ZArith Ascii String List Bool Lia Sorted DecimalString DecimalNat.
From stdpp Require Import base decidable option list gmap strings sorting.
Import ListNotations.
Set Warnings "-abstract-large-number".

Abbreviation str := (list ascii).

(** A string literal as a Python [str]. *)
Definition lit (s : string) : str := list_ascii_of_string s.
Arguments lit s%_string.

(* ===================================================================== *)
(** ** Characters and strings *)
(* ===================================================================== *)

Fixpoint take_while {A} (f : A -> bool) (l : list A) : list A :=
  match l with
  | x :: r => if f x then x :: take_while f r else []
  | [] => []
  end.

Fixpoint drop_while {A} (f : A -> bool) (l : list A) : list A :=
  match l with
  | x :: r => if f x then drop_while f r else l
  | [] => []
  end.

Definition is_digit (c : ascii) : bool :=
  (48 <=? nat_of_ascii c) && (nat_of_ascii c <=? 57).

Definition digit_val (c : ascii) : nat := nat_of_ascii c - 48.

Definition num2 (a b : ascii) : nat := 10 * digit_val a + digit_val b.

Definition num4 (a b c d : ascii) : nat :=
  1000 * digit_val a + 100 * digit_val b + 10 * digit_val c + digit_val d.

(** [\s] of Python's [re] on ASCII text. *)
Definition is_space (c : ascii) : bool :=
  let n := nat_of_ascii c in (n =? 32) || ((9 <=? n) && (n <=? 13)).

(** [str.lower()] on ASCII text. *)
Definition lower_char (c : ascii) : ascii :=
  let n := nat_of_ascii c in
  if (65 <=? n) && (n <=? 90) then ascii_of_nat (n + 32) else c.

Definition lower (s : str) : str := lower_char <$> s.

(** [s.endswith(suf)]. *)
Definition endswith (s suf : str) : bool :=
  (length suf <=? length s) && bool_decide (drop (length s - length suf) s = suf).

(** [s.startswith(pre)]. *)
Definition startswith (s pre : str) : bool :=
  bool_decide (take (length pre) s = pre).

(** [s.rfind(c)] for a one-character needle: the last index of [c], or -1. *)
Fixpoint rfind_from (i : Z) (c : ascii) (s : str) : Z :=
  match s with
  | [] => -1
  | x :: r =>
      let j := rfind_from (i + 1) c r in
      if (0 <=? j)%Z then j else if bool_decide (x = c) then i else -1
  end.

Definition rfind (c : ascii) (s : str) : Z := rfind_from 0 c s.

(** [str(n)] for a non-negative integer. *)
Definition str_of_nat (n : nat) : str :=
  list_ascii_of_string (NilEmpty.string_of_uint (Nat.to_uint n)).

(** Zero-padded decimal of width [w], as [%0wd] prints it. *)
Definition pad_left (w : nat) (s : str) : str :=
  replicate (w - length s) "0"%char ++ s.

(* ===================================================================== *)
(** ** [os.path] (POSIX flavour) *)
(* ===================================================================== *)

Definition sep : ascii := "/"%char.
Definition extsep : ascii := "."%char.

(** [posixpath.basename]: [i = p.rfind('/') + 1; return p[i:]]. *)
Definition basename (p : str) : str :=
  drop (Z.to_nat (rfind sep p + 1)) p.

(** [str.rstrip('/')]. *)
Definition rstrip_sep (s : str) : str :=
  rev (drop_while (fun c => bool_decide (c = sep)) (rev s)).

(** [posixpath.dirname]: the head up to the last separator, with trailing
    separators removed unless the head consists of separators only. *)
Definition dirname (p : str) : str :=
  let head := take (Z.to_nat (rfind sep p + 1)) p in
  if negb (bool_decide (head = [])) &&
     negb (bool_decide (head = replicate (length head) sep))
  then rstrip_sep head else head.

(** [posixpath.join(a, b)] for two components. *)
Definition join (a b : str) : str :=
  if startswith b [sep] then b
  else if bool_decide (a = []) || endswith a [sep] then a ++ b
  else a ++ [sep] ++ b.

(** The loop of [genericpath._splitext] that skips the leading dots of the
    file name: is there a character other than [.] in [p[from:upto]]? *)
Definition has_non_dot (p : str) (from upto : nat) : bool :=
  existsb (fun c => negb (bool_decide (c = extsep))) (take (upto - from) (drop from p)).

(** [os.path.splitext(p)]: split at the last dot of the last component,
    unless that component consists of leading dots up to there. *)
Definition splitext (p : str) : str * str :=
  let sepIndex := rfind sep p in
  let dotIndex := rfind extsep p in
  if (sepIndex <? dotIndex)%Z &&
     has_non_dot p (Z.to_nat (sepIndex + 1)) (Z.to_nat dotIndex)
  then (take (Z.to_nat dotIndex) p, drop (Z.to_nat dotIndex) p)
  else (p, []).

(* ===================================================================== *)
(** ** Calendar dates and [datetime.strptime] *)
(* ===================================================================== *)

(** A [datetime.date]. *)
Record caldate := mk_date { year : nat; month : nat; day : nat }.

#[global] Instance caldate_eq_dec : EqDecision caldate.
Proof. solve_decision. Defined.

Definition is_leap (y : nat) : bool :=
  (y mod 4 =? 0) && (negb (y mod 100 =? 0) || (y mod 400 =? 0)).

Definition days_in_month (y m : nat) : nat :=
  match m with
  | 1 | 3 | 5 | 7 | 8 | 10 | 12 => 31
  | 4 | 6 | 9 | 11 => 30
  | 2 => if is_leap y then 29 else 28
  | _ => 0
  end.

(** [datetime.date(y, m, d)]; [None] stands for the [ValueError]. *)
Definition make_date (y m d : nat) : option caldate :=
  if (1 <=? y) && (y <=? 9999) && (1 <=? m) && (m <=? 12)
     && (1 <=? d) && (d <=? days_in_month y m)
  then Some (mk_date y m d) else None.

(** [datetime.datetime(y, m, d, H, M, S).date()]. *)
Definition make_datetime_date (y m d hh mm ss : nat) : option caldate :=
  if (hh <=? 23) && (mm <=? 59) && (ss <=? 59) then make_date y m d else None.

(** [strptime(s, "%Y%m%d").date()] on the text of a [\d{8}] match.  On eight
    digits the directive patterns of [_strptime] ([\d\d\d\d],
    [1[0-2]|0[1-9]|[1-9]], [3[0-1]|[1-2]\d|0[1-9]|[1-9]| [1-9]]) consume the
    whole text only with two-digit month and day, so the fields have fixed
    width; any other text raises [ValueError]. *)
Definition strptime_Ymd (s : str) : option caldate :=
  match s with
  | [y1; y2; y3; y4; m1; m2; d1; d2] =>
      if forallb is_digit s
      then make_date (num4 y1 y2 y3 y4) (num2 m1 m2) (num2 d1 d2)
      else None
  | _ => None
  end.

(** [strptime(s, "%Y-%m-%d").date()] on the text of a [\d{4}-\d{2}-\d{2}]
    match. *)
Definition strptime_Y_m_d (s : str) : option caldate :=
  match s with
  | [y1; y2; y3; y4; h1; m1; m2; h2; d1; d2] =>
      if forallb is_digit [y1; y2; y3; y4; m1; m2; d1; d2]
         && bool_decide (h1 = "-"%char) && bool_decide (h2 = "-"%char)
      then make_date (num4 y1 y2 y3 y4) (num2 m1 m2) (num2 d1 d2)
      else None
  | _ => None
  end.

(** [strptime(s, "%Y%m%d%H%M%S").date()] on the text of a [\d{14}] match:
    fixed-width fields again; seconds 60 and 61 pass the pattern and are
    refused by the [datetime] constructor. *)
Definition strptime_YmdHMS (s : str) : option caldate :=
  match s with
  | [y1; y2; y3; y4; m1; m2; d1; d2; H1; H2; M1; M2; S1; S2] =>
      if forallb is_digit s
      then make_datetime_date (num4 y1 y2 y3 y4) (num2 m1 m2) (num2 d1 d2)
                              (num2 H1 H2) (num2 M1 M2) (num2 S1 S2)
      else None
  | _ => None
  end.

(** One numeric directive of [_strptime]: the two-digit alternatives come
    first, then the one-digit alternative.  The value and the rest of the
    text are returned. *)
Definition directive (two one : nat -> bool) (s : str) : option (nat * str) :=
  match s with
  | a :: b :: r =>
      if is_digit a && is_digit b && two (num2 a b) then Some (num2 a b, r)
      else if is_digit a && one (digit_val a) then Some (digit_val a, b :: r)
      else None
  | [a] => if is_digit a && one (digit_val a) then Some (digit_val a, []) else None
  | [] => None
  end.

Definition between (lo hi n : nat) : bool := (lo <=? n) && (n <=? hi).

Definition dir_m := directive (between 1 12) (between 1 9).
Definition dir_H := directive (between 0 23) (between 0 9).
Definition dir_M := directive (between 0 59) (between 0 9).
Definition dir_S := directive (between 0 61) (between 0 9).

(** [%d] has one more alternative, a space followed by a digit. *)
Definition dir_d (s : str) : option (nat * str) :=
  match directive (between 1 31) (between 1 9) s with
  | Some r => Some r
  | None =>
      match s with
      | a :: b :: r =>
          if bool_decide (a = " "%char) && is_digit b && between 1 9 (digit_val b)
          then Some (digit_val b, r) else None
      | _ => None
      end
  end.

Definition dir_Y (s : str) : option (nat * str) :=
  match s with
  | a :: b :: c :: d :: r =>
      if forallb is_digit [a; b; c; d] then Some (num4 a b c d, r) else None
  | _ => None
  end.

(** A literal character of the format. *)
Definition expect (c : ascii) (s : str) : option str :=
  match s with
  | x :: r => if bool_decide (x = c) then Some r else None
  | [] => None
  end.

(** White space in a format stands for [\s+]. *)
Definition spaces1 (s : str) : option str :=
  match s with
  | x :: r => if is_space x then Some (drop_while is_space r) else None
  | [] => None
  end.

(** [strptime(value, "%Y:%m:%d %H:%M:%S").date()], the EXIF time stamp.
    Every directive is followed by a literal that is not a digit, so the
    first alternative that matches is the only one that can; the whole text
    must be consumed. *)
Definition strptime_exif (value : str) : option caldate :=
  '(y, s) ← dir_Y value; s ← expect ":"%char s;
  '(m, s) ← dir_m s; s ← expect ":"%char s;
  '(d, s) ← dir_d s; s ← spaces1 s;
  '(hh, s) ← dir_H s; s ← expect ":"%char s;
  '(mm, s) ← dir_M s; s ← expect ":"%char s;
  '(ss, s) ← dir_S s;
  if bool_decide (s = []) then make_datetime_date y m d hh mm ss else None.

(* ===================================================================== *)
(** ** [re.search] for the three file-name patterns *)
(* ===================================================================== *)

(** [re.search(pat, s)]: the leftmost position at which the pattern matches;
    [pat] matches at the start of its argument and returns group 1. *)
Fixpoint re_search (pat : str -> option str) (s : str) : option str :=
  match pat s with
  | Some g => Some g
  | None => match s with [] => None | _ :: r => re_search pat r end
  end.

(** [(\d{n})]. *)
Definition pat_digits (n : nat) (s : str) : option str :=
  if (n <=? length s) && forallb is_digit (take n s) then Some (take n s) else None.

(** [(\d{4}-\d{2}-\d{2})]. *)
Definition pat_iso (s : str) : option str :=
  match s with
  | y1 :: y2 :: y3 :: y4 :: h1 :: m1 :: m2 :: h2 :: d1 :: d2 :: _ =>
      if forallb is_digit [y1; y2; y3; y4; m1; m2; d1; d2]
         && bool_decide (h1 = "-"%char) && bool_decide (h2 = "-"%char)
      then Some (take 10 s) else None
  | _ => None
  end.

(* ===================================================================== *)
(** ** Metadata extractor: [get_image_date] *)
(* ===================================================================== *)

(** The EXIF block as [img._getexif()] returns it: the items of the
    dictionary in iteration order, numeric tag and value.  [None] stands for
    every way of getting no block (the open raises, there is no EXIF, the
    dictionary is empty). *)
Definition exif_block := option (list (N * str)).

(** [ExifTags.TAGS.get(tag)] for the tags the script looks at. *)
Definition TAGS (tag : N) : option string :=
  match tag with
  | 306%N => Some "DateTime"
  | 36867%N => Some "DateTimeOriginal"
  | 36868%N => Some "DateTimeDigitized"
  | 34853%N => Some "GPSInfo"
  | _ => None
  end%string.

Definition is_capture_tag (item : N * str) : bool :=
  match TAGS (fst item) with
  | Some name =>
      bool_decide (name ∈ ["DateTimeOriginal"; "DateTimeDigitized"; "DateTime"]%string)
  | None => false
  end.

(** The [for tag, value in exif_data.items()] loop: it returns at the first
    item whose decoded tag is one of the three names; a value that does not
    parse raises, which leaves the [try] block. *)
Definition exif_capture_date (exif : exif_block) : option caldate :=
  items ← exif;
  item ← snd <$> list_find is_capture_tag items;
  strptime_exif (snd item).

(** [get_image_date(image_path)], with the EXIF block of the file and its
    modification date given. *)
Definition get_image_date (exif : exif_block) (mtime : caldate) (image_path : str) : caldate :=
  match exif_capture_date exif with
  | Some d => d
  | None =>
      let filename := basename image_path in
      match re_search pat_iso filename ≫= strptime_Y_m_d with
      | Some d => d
      | None =>
          match re_search (pat_digits 8) filename ≫= strptime_Ymd with
          | Some d => d
          | None =>
              match re_search (pat_digits 14) filename ≫= strptime_YmdHMS with
              | Some d => d
              | None => mtime
              end
          end
      end
  end.

(* ===================================================================== *)
(** ** The files the script works on *)
(* ===================================================================== *)

(** What the script observes of the outside world.  A path that is listed
    but missing from [files] cannot be opened for reading.  The quality
    score (OpenCV, floating point) and the GPS location string are taken as
    given per path; the selector only compares scores, so they are integers
    here. *)
Record World := mk_world {
  files : gmap str (list Byte.byte);        (* readable files and their bytes *)
  writable : str -> bool;                   (* can this destination be written? *)
  md5 : list Byte.byte -> str;              (* hashlib.md5(b).hexdigest() *)
  score_image_quality : str -> Z;
  exif_of : str -> exif_block;
  mtime_of : str -> caldate;
  get_image_location : str -> option str;
}.

(** [get_image_hash]: the digest of the bytes, [None] when reading raises. *)
Definition get_image_hash (w : World) (image_path : str) : option str :=
  md5 w <$> files w !! image_path.

(** The dictionaries appended to [photo_info]. *)
Record PhotoInfo := mk_info {
  path : str;
  score : Z;
  date : caldate;
  location : option str;
}.

#[global] Instance PhotoInfo_eq_dec : EqDecision PhotoInfo.
Proof. solve_decision. Defined.

Definition TOP_PHOTOS_PER_EVENT : Z := 5.
Definition GLOBAL_LIMIT : Z := 150.

(* ===================================================================== *)
(** ** Scan and deduplication (the loop of [main]) *)
(* ===================================================================== *)

(** [file.lower().endswith(('.jpg', '.jpeg', '.png'))]. *)
Definition is_image (file : str) : bool :=
  let l := lower file in
  endswith l (lit ".jpg") || endswith l (lit ".jpeg") || endswith l (lit ".png").

Definition photo_of (w : World) (p : str) : PhotoInfo :=
  {| path := p;
     score := score_image_quality w p;
     date := get_image_date (exif_of w p) (mtime_of w p) p;
     location := get_image_location w p |}.

(** The state of the scan: [photo_info] and [seen_hashes]. *)
Definition scan_state : Type := list PhotoInfo * gset (option str).

(** The body of the loops for one path. *)
Definition scan_path (w : World) (st : scan_state) (p : str) : scan_state :=
  let img_hash := get_image_hash w p in
  if bool_decide (img_hash ∈ st.2) then st
  else (st.1 ++ [photo_of w p], {[img_hash]} ∪ st.2).

Definition scan_file (w : World) (root : str) (st : scan_state) (file : str) : scan_state :=
  if is_image file then scan_path w st (join root file) else st.

(** [os.walk] yields, per directory, its path and the names of its files. *)
Definition scan_dir (w : World) (st : scan_state) (entry : str * list str) : scan_state :=
  foldl (scan_file w entry.1) st entry.2.

Definition scan (w : World) (walk : list (str * list str)) : scan_state :=
  foldl (scan_dir w) ([], ∅) walk.

(** The paths the loops visit, in order. *)
Definition candidates (walk : list (str * list str)) : list str :=
  walk ≫= fun entry => join entry.1 <$> filter (fun f => is_image f = true) entry.2.

(* ===================================================================== *)
(** ** Event grouper and selector *)
(* ===================================================================== *)

(** [events[d].append(info)] on a dictionary that keeps insertion order. *)
Fixpoint events_append (events : list (caldate * list PhotoInfo))
    (d : caldate) (info : PhotoInfo) : list (caldate * list PhotoInfo) :=
  match events with
  | [] => [(d, [info])]
  | (k, v) :: rest =>
      if decide (k = d) then (k, v ++ [info]) :: rest
      else (k, v) :: events_append rest d info
  end.

Definition group_photos_by_event (photo_info : list PhotoInfo)
    : list (caldate * list PhotoInfo) :=
  foldl (fun events info => events_append events (date info) info) [] photo_info.

(** [sorted(photos, key=lambda x: x['score'], reverse=True)]: the sort is
    stable, also with [reverse=True]; it is written as an insertion sort
    that puts a record in front of the first one that does not beat it. *)
Fixpoint insert_desc (x : PhotoInfo) (l : list PhotoInfo) : list PhotoInfo :=
  match l with
  | [] => [x]
  | y :: r => if (score y <=? score x)%Z then x :: l else y :: insert_desc x r
  end.

Fixpoint sorted_desc (l : list PhotoInfo) : list PhotoInfo :=
  match l with
  | [] => []
  | x :: r => insert_desc x (sorted_desc r)
  end.

(** The slice [l[:n]] for a Python integer [n]: a negative [n] counts from
    the end. *)
Definition slice_to {A} (n : Z) (l : list A) : list A :=
  if (0 <=? n)%Z then take (Z.to_nat n) l
  else take (length l - Z.to_nat (- n)) l.

Definition select_top_photos (events : list (caldate * list PhotoInfo))
    (top_n global_limit : Z) : list PhotoInfo :=
  let selected_photos :=
    foldl (fun sel ev => sel ++ slice_to top_n (sorted_desc ev.2)) [] events in
  slice_to global_limit (sorted_desc selected_photos).

(** The selector of [scripts/categorise_photos.py] has no global phase. *)
Module Categorise.
Definition select_top_photos (events : list (caldate * list PhotoInfo))
    (top_n : Z) : list PhotoInfo :=
  foldl (fun sel ev => sel ++ slice_to top_n (sorted_desc ev.2)) [] events.
End Categorise.

(* ===================================================================== *)
(** ** Materializer and reporter *)
(* ===================================================================== *)

(** [d.strftime("%Y-%m-%d")].  Years below 1000 are printed by the C
    library in a platform-dependent width; four digits are used here. *)
Definition strftime_iso (d : caldate) : str :=
  pad_left 4 (str_of_nat (year d)) ++ lit "-" ++ pad_left 2 (str_of_nat (month d))
  ++ lit "-" ++ pad_left 2 (str_of_nat (day d)).

(** [x or dflt] for an optional string: [None] and the empty string are
    both false. *)
Definition or_else (x : option str) (dflt : str) : str :=
  match x with
  | Some (c :: r) => c :: r
  | _ => dflt
  end.

(** The name given to the record of rank [idx]. *)
Definition new_name (idx : nat) (info : PhotoInfo) : str :=
  let src := path info in
  let date_str := strftime_iso (date info) in
  let location_str := or_else (location info) (lit "NoLocation") in
  let folder_name := basename (dirname src) in
  let ext := (splitext (basename src)).2 in
  date_str ++ lit "_" ++ location_str ++ lit "_" ++ folder_name ++ lit "_"
  ++ str_of_nat idx ++ ext.

Definition destination (output_folder : str) (idx : nat) (info : PhotoInfo) : str :=
  join output_folder (new_name idx info).

(** [shutil.copy2(src, dst)]: [None] stands for the exception. *)
Definition copy2 (w : World) (src dst : str) (fs : gmap str (list Byte.byte))
    : option (gmap str (list Byte.byte)) :=
  match fs !! src with
  | Some b => if writable w dst then Some (<[dst := b]> fs) else None
  | None => None
  end.

(** The lines the copy loop prints. *)
Inductive line :=
  | Copied (idx total : nat) (src dst : str)
  | ErrorCopying (src : str).

#[global] Instance line_eq_dec : EqDecision line.
Proof. solve_decision. Defined.

Definition copy_state : Type := gmap str (list Byte.byte) * list line.

Definition copy_one (w : World) (output_folder : str) (total : nat)
    (st : copy_state) (item : nat * PhotoInfo) : copy_state :=
  let '(idx, info) := item in
  let src := path info in
  let dst := destination output_folder idx info in
  match copy2 w src dst st.1 with
  | Some fs' => (fs', st.2 ++ [Copied idx total src dst])
  | None => (st.1, st.2 ++ [ErrorCopying src])
  end.

(** [enumerate(l, start)]. *)
Definition enumerate {A} (start : nat) (l : list A) : list (nat * A) :=
  zip (seq start (length l)) l.

(** [copy_selected_photos]; creating the output folder does not touch the
    files and is left out. *)
Definition copy_selected_photos (w : World) (selected_photos : list PhotoInfo)
    (output_folder : str) (fs : gmap str (list Byte.byte)) : copy_state :=
  foldl (copy_one w output_folder (length selected_photos)) (fs, [])
        (enumerate 1 selected_photos).

(** A cell of the report. *)
Inductive cell :=
  | CStr (s : str)
  | CNum (z : Z)
  | CDate (d : caldate)
  | CNone.

#[global] Instance cell_eq_dec : EqDecision cell.
Proof. solve_decision. Defined.

(** [pd.DataFrame(selected_photos)]: one row per dictionary, one column per
    key. *)
Definition row_of (info : PhotoInfo) : list (string * cell) :=
  [ ("path", CStr (path info));
    ("score", CNum (score info));
    ("date", CDate (date info));
    ("location", from_option CStr CNone (location info)) ]%string.

(** What a run of [main] leaves behind. *)
Record Run := mk_run {
  photo_info : list PhotoInfo;
  selected_photos : list PhotoInfo;
  fs_after : gmap str (list Byte.byte);
  output : list line;
  report : list (list (string * cell));
}.

Definition main (w : World) (walk : list (str * list str)) (output_folder : str) : Run :=
  let photo_info := (scan w walk).1 in
  let events := group_photos_by_event photo_info in
  let selected_photos := select_top_photos events TOP_PHOTOS_PER_EVENT GLOBAL_LIMIT in
  let copied := copy_selected_photos w selected_photos output_folder (files w) in
  {| photo_info := photo_info;
     selected_photos := selected_photos;
     fs_after := copied.1;
     output := copied.2;
     report := row_of <$> selected_photos |}.

(* ===================================================================== *)
(** ** The unfiltered entry point: [copy_all_images] *)
(* ===================================================================== *)

(** The lines [copy_all_images] prints. *)
Inductive line_all :=
  | CopiedAll (idx : nat) (src dst : str)
  | ErrorAll (src : str).

#[global] Instance line_all_eq_dec : EqDecision line_all.
Proof. solve_decision. Defined.

(** The name [copy_all_images] builds for a file of the directory [root]
    when the counter stands at [idx].  A [datetime.date] is never false, so
    the date string is always the ISO date. *)
Definition name_all (w : World) (root file : str) (idx : nat) : str :=
  let src := join root file in
  let d := get_image_date (exif_of w src) (mtime_of w src) src in
  let date_str := strftime_iso d in
  let location_str := or_else (get_image_location w src) (lit "NoLocation") in
  let folder_name := basename root in
  let ext := (splitext file).2 in
  date_str ++ lit "_" ++ location_str ++ lit "_" ++ folder_name ++ lit "_"
  ++ str_of_nat idx ++ ext.

(** The state of [copy_all_images]: the counter, the files, the lines
    printed. *)
Record copy_all_state := mk_copy_all {
  ca_idx : nat;
  ca_fs : gmap str (list Byte.byte);
  ca_out : list line_all;
}.

(** The body of the loops for one file name: the counter advances only
    when the copy succeeds. *)
Definition copy_all_file (w : World) (output_folder root : str)
    (st : copy_all_state) (file : str) : copy_all_state :=
  if is_image file then
    let src := join root file in
    let dst := join output_folder (name_all w root file (ca_idx st)) in
    match copy2 w src dst (ca_fs st) with
    | Some fs' =>
        {| ca_idx := S (ca_idx st); ca_fs := fs';
           ca_out := ca_out st ++ [CopiedAll (ca_idx st) src dst] |}
    | None =>
        {| ca_idx := ca_idx st; ca_fs := ca_fs st;
           ca_out := ca_out st ++ [ErrorAll src] |}
    end
  else st.

Definition copy_all_dir (w : World) (output_folder : str)
    (st : copy_all_state) (entry : str * list str) : copy_all_state :=
  foldl (copy_all_file w output_folder entry.1) st entry.2.

(** [copy_all_images]; creating the output folder is left out as in
    [copy_selected_photos]. *)
Definition copy_all_images (w : World) (walk : list (str * list str))
    (output_folder : str) : copy_all_state :=
  foldl (copy_all_dir w output_folder)
        {| ca_idx := 1; ca_fs := files w; ca_out := [] |} walk.

(* ===================================================================== *)
(** ** [scripts/categorise_photos.py] *)
(* ===================================================================== *)

Module CategorisePhotos.

Definition TOP_PHOTOS_PER_EVENT : Z := 5.

(** What the face-recognition and imaging libraries answer. *)
Record Faces := mk_faces {
  (* detect_faces_and_match(path, reference_encodings); None when loading
     the image raises, which nothing in the script catches *)
  has_face_match : str -> option bool;
  (* the bytes Image.open(src).save(dst) writes for the bytes of src;
     None when it raises *)
  resave : list Byte.byte -> str -> option (list Byte.byte);
}.

Definition is_original_tag (item : N * str) : bool :=
  match TAGS item.1 with
  | Some name => bool_decide (name = "DateTimeOriginal"%string)
  | None => false
  end.

(** [get_image_date]: the [DateTimeOriginal] tag, else the modification
    date; the file name is not looked at. *)
Definition get_image_date (exif : exif_block) (mtime : caldate) : caldate :=
  default mtime
    (items ← exif;
     item ← snd <$> list_find is_original_tag items;
     strptime_exif item.2).

(** [quality_score + (1000 if has_face_match else 0)]. *)
Definition combined_score (quality_score : Z) (has_face_match : bool) : Z :=
  (quality_score + (if has_face_match then 1000 else 0))%Z.

(** The dictionary built for one path; it has no location. *)
Definition photo_of (w : World) (fc : Faces) (p : str) : option PhotoInfo :=
  m ← has_face_match fc p;
  Some {| path := p;
          score := combined_score (score_image_quality w p) m;
          date := get_image_date (exif_of w p) (mtime_of w p);
          location := None |}.

(** The loop of [main] over [os.listdir(INPUT_FOLDER)]; an exception ends
    the run. *)
Definition scan (w : World) (fc : Faces) (input_folder : str) (listing : list str)
    : option (list PhotoInfo) :=
  mapM (photo_of w fc) (join input_folder <$> filter (fun f => is_image f = true) listing).

(** [Image.open(src).save(dst)]. *)
Definition save_as (w : World) (fc : Faces) (src dst : str)
    (fs : gmap str (list Byte.byte)) : option (gmap str (list Byte.byte)) :=
  b ← fs !! src;
  b' ← resave fc b dst;
  if writable w dst then Some (<[dst := b']> fs) else None.

Definition destination (output_folder : str) (info : PhotoInfo) : str :=
  join output_folder (basename (path info)).

(** One turn of the copy loop: the files, and the sources whose copy
    raised (the only lines printed). *)
Definition copy_one (w : World) (fc : Faces) (output_folder : str)
    (st : gmap str (list Byte.byte) * list str) (info : PhotoInfo)
    : gmap str (list Byte.byte) * list str :=
  match save_as w fc (path info) (destination output_folder info) st.1 with
  | Some fs' => (fs', st.2)
  | None => (st.1, st.2 ++ [path info])
  end.

Definition copy_selected_photos (w : World) (fc : Faces)
    (selected_photos : list PhotoInfo) (output_folder : str)
    (fs : gmap str (list Byte.byte)) : gmap str (list Byte.byte) * list str :=
  foldl (copy_one w fc output_folder) (fs, []) selected_photos.

Definition row_of (info : PhotoInfo) : list (string * cell) :=
  [ ("path", CStr (path info));
    ("score", CNum (score info));
    ("date", CDate (date info)) ]%string.

Record Run := mk_run {
  photo_info : list PhotoInfo;
  selected_photos : list PhotoInfo;
  fs_after : gmap str (list Byte.byte);
  errors : list str;
  report : list (list (string * cell));
}.

Definition main (w : World) (fc : Faces) (input_folder : str) (listing : list str)
    (output_folder : str) : option Run :=
  photo_info ← scan w fc input_folder listing;
  let events := group_photos_by_event photo_info in
  let selected_photos := Categorise.select_top_photos events TOP_PHOTOS_PER_EVENT in
  let copied := copy_selected_photos w fc selected_photos output_folder (files w) in
  Some {| photo_info := photo_info;
          selected_photos := selected_photos;
          fs_after := copied.1;
          errors := copied.2;
          report := row_of <$> selected_photos |}.

End CategorisePhotos.

(** ** Sample worlds *)

Definition bytes_of (s : string) : list Byte.byte := list_byte_of_string s.
Arguments bytes_of s%_string.

(** A stand-in digest for the sample runs: the bytes themselves. *)
Definition toy_md5 (b : list Byte.byte) : str :=
  (fun x => ascii_of_nat (Byte.to_nat x)) <$> b.

(** A table of values per path, with a default. *)
Fixpoint table {V} (dflt : V) (tbl : list (string * V)) (p : str) : V :=
  match tbl with
  | [] => dflt
  | (k, v) :: rest => if bool_decide (lit k = p) then v else table dflt rest p
  end.

(** A world from the readable files, the scores, the modification dates
    and the destinations that cannot be written; no file has EXIF data or a
    location. *)
Definition sample_world (fs : list (string * string)) (sc : list (string * Z))
    (dates : list (string * caldate)) (ro : list string) : World :=
  {| files := list_to_map ((fun e => (lit e.1, bytes_of e.2)) <$> fs);
     writable := fun p => negb (bool_decide (p ∈ lit <$> ro));
     md5 := toy_md5;
     score_image_quality := table 0%Z sc;
     exif_of := fun _ => None;
     mtime_of := table (mk_date 2024 6 1) dates;
     get_image_location := fun _ => None |}.

Definition w1 : World :=
  sample_world [("/in/a.jpg", "AAA"); ("/in/b.jpg", "BBB"); ("/in/c.JPG", "AAA")]%string
               [("/in/a.jpg", 10%Z); ("/in/b.jpg", 90%Z); ("/in/c.JPG", 50%Z)]%string [] [].

(** The same two files, with the destination of the first rank read-only. *)
Definition w2 : World :=
  sample_world [("/in/a.jpg", "AAA"); ("/in/b.jpg", "BBB")]%string
               [("/in/a.jpg", 10%Z); ("/in/b.jpg", 90%Z)]%string []
               ["/out/2024-06-01_NoLocation_in_1.jpg"]%string.

(** Faces for the sample runs: the listed paths show a reference face,
    every image loads, and saving keeps the bytes. *)
Definition sample_faces (matched : list string) : CategorisePhotos.Faces :=
  {| CategorisePhotos.has_face_match := fun p => Some (bool_decide (p ∈ lit <$> matched));
     CategorisePhotos.resave := fun b _ => Some b |}.

(* ===================================================================== *)
(** ** Notions used to state the properties *)
(* ===================================================================== *)

Definition non_digit (c : ascii) : Prop := is_digit c = false.

(** The paths a scan keeps, given the fingerprints seen so far. *)
Fixpoint first_seen (h : str -> option str) (seen : gset (option str))
    (l : list str) : list str :=
  match l with
  | [] => []
  | x :: r =>
      if bool_decide (h x ∈ seen) then first_seen h seen r
      else x :: first_seen h ({[h x]} ∪ seen) r
  end.

(** The list stored under a date, empty when the date is no key. *)
Fixpoint ev_lookup (d : caldate) (events : list (caldate * list PhotoInfo))
    : list PhotoInfo :=
  match events with
  | [] => []
  | (k, v) :: rest => if decide (k = d) then v else ev_lookup d rest
  end.

(** [a] occurs in [l] at an earlier position than [b]. *)
Definition before {A} (a b : A) (l : list A) : Prop := [a; b] `sublist_of` l.

(** The source path a printed line speaks of. *)
Definition line_src (ln : line) : str :=
  match ln with
  | Copied _ _ src _ => src
  | ErrorCopying src => src
  end.

(** The line the copy loop prints for one item, given the files as they
    are when the item is reached. *)
Definition copy_line (w : World) (output_folder : str) (total : nat)
    (fs : gmap str (list Byte.byte)) (item : nat * PhotoInfo) : line :=
  match copy2 w (path item.2) (destination output_folder item.1 item.2) fs with
  | Some _ => Copied item.1 total (path item.2) (destination output_folder item.1 item.2)
  | None => ErrorCopying (path item.2)
  end.

(** The state of the copy loop when it reaches the record of index [i]. *)
Definition copy_prefix (w : World) (selected_photos : list PhotoInfo)
    (output_folder : str) (fs : gmap str (list Byte.byte)) (i : nat) : copy_state :=
  foldl (copy_one w output_folder (length selected_photos)) (fs, [])
        (take i (enumerate 1 selected_photos)).

(** The output names given to a selection, in rank order. *)
Definition assigned_names (selected_photos : list PhotoInfo) : list str :=
  (fun item => new_name item.1 item.2) <$> enumerate 1 selected_photos.

(** The decimal digits that stand in front of the extension of a name. *)
Definition rank_digits (name : str) : str :=
  rev (take_while is_digit (drop_while (fun c => negb (is_digit c)) (rev name))).

(** A record of date [d] is scanned before every record of date [e]. *)
Definition date_seen_first (d e : caldate) (l : list PhotoInfo) : Prop :=
  exists l1 x l2, l = l1 ++ x :: l2 /\ date x = d /\ forall y, y ∈ l1 -> date y ≠ e.

(** The records of a given score taken on a given date. *)
Definition in_class (s : Z) (d : caldate) (r : PhotoInfo) : Prop :=
  score r = s /\ date r = d.

#[global] Instance in_class_dec s d r : Decision (in_class s d r).
Proof. unfold in_class. apply _. Defined.

(** The records of a list taken on a given date. *)
Definition on_date (d : caldate) (l : list PhotoInfo) : list PhotoInfo :=
  filter (fun r => date r = d) l.

(** The per-event survivors of all events, in the order of the events. *)
Definition pool (events : list (caldate * list PhotoInfo)) (top_n : Z) : list PhotoInfo :=
  events ≫= fun ev => slice_to top_n (sorted_desc ev.2).

(** Descending order of score. *)
Definition descending (l : list PhotoInfo) : Prop :=
  StronglySorted (fun a b => (score b <= score a)%Z) l.

(** A [datetime.date] that the constructor accepts. *)
Definition valid_date (d : caldate) : Prop :=
  make_date (year d) (month d) (day d) = Some d.


(** The source, the rank and the destination a line of [copy_all_images]
    speaks of. *)
Definition line_all_src (ln : line_all) : str :=
  match ln with
  | CopiedAll _ src _ => src
  | ErrorAll src => src
  end.

Definition line_all_rank (ln : line_all) : option nat :=
  match ln with
  | CopiedAll idx _ _ => Some idx
  | ErrorAll _ => None
  end.

Definition line_all_dst (ln : line_all) : option str :=
  match ln with
  | CopiedAll _ _ dst => Some dst
  | ErrorAll _ => None
  end.


(** What a stretch of [copy_all_images] adds to its state: one line per
    source in [srcs], the copied lines numbered from the counter on, and the
    rank readable from each destination. *)
Definition copy_all_added (st st' : copy_all_state) (srcs : list str) : Prop :=
  ca_idx st <= ca_idx st'
  /\ exists added,
       ca_out st' = ca_out st ++ added
       /\ line_all_src <$> added = srcs
       /\ omap line_all_rank added = seq (ca_idx st) (ca_idx st' - ca_idx st)
       /\ forall idx src dst, CopiedAll idx src dst ∈ added ->
            rank_digits dst = str_of_nat idx.

(* ===================================================================== *)
(** * Properties *)
(* ===================================================================== *)

(** ** Sample runs *)

Example get_image_date_iso :
  get_image_date None (mk_date 2020 1 1) (lit "/in/IMG_2024-06-01_x.jpg") = mk_date 2024 6 1.
Proof. vm_compute. reflexivity. Qed.

Example get_image_date_exif :
  get_image_date (Some [(271%N, lit "cam"); (36867%N, lit "2019:03:04 10:11:12")])
                 (mk_date 2020 1 1) (lit "/in/a.jpg") = mk_date 2019 3 4.
Proof. vm_compute. reflexivity. Qed.

Example basename_ex : basename (lit "/a/b/c.jpg") = lit "c.jpg" /\ dirname (lit "/a/b/c.jpg") = lit "/a/b"
  /\ splitext (lit "c.tar.JPG") = (lit "c.tar", lit ".JPG") /\ splitext (lit "..jpg") = (lit "..jpg", [])
  /\ join (lit "/a") (lit "b") = lit "/a/b".
Proof. vm_compute. repeat split; reflexivity. Qed.

Example main_w1 :
  let r := main w1 [(lit "/in", [lit "a.jpg"; lit "b.jpg"; lit "notes.txt"; lit "c.JPG"])] (lit "/out") in
  map path (photo_info r) = [lit "/in/a.jpg"; lit "/in/b.jpg"]
  /\ map path (selected_photos r) = [lit "/in/b.jpg"; lit "/in/a.jpg"]
  /\ output r = [Copied 1 2 (lit "/in/b.jpg") (lit "/out/2024-06-01_NoLocation_in_1.jpg");
                 Copied 2 2 (lit "/in/a.jpg") (lit "/out/2024-06-01_NoLocation_in_2.jpg")]
  /\ fs_after r !! lit "/out/2024-06-01_NoLocation_in_1.jpg" = Some (bytes_of "BBB").
Proof. vm_compute. repeat split; reflexivity. Qed.

(** ** File-name fallback of [get_image_date] *)

Lemma pat_digits_non_digit n c s :
  0 < n -> non_digit c -> pat_digits n (c :: s) = None.
Proof.
  intros Hn Hc. unfold pat_digits.
  destruct n as [|n]; [lia|]. cbn [take forallb].
  rewrite Hc. cbn. by rewrite andb_false_r.
Qed.

Lemma re_search_digits_skip n pre s :
  0 < n -> Forall non_digit pre ->
  re_search (pat_digits n) (pre ++ s) = re_search (pat_digits n) s.
Proof.
  intros Hn. induction 1 as [|c pre Hc _ IH]; [done|].
  cbn [app re_search]. by rewrite pat_digits_non_digit.
Qed.

Lemma re_search_here pat s g : pat s = Some g -> re_search pat s = Some g.
Proof. intros H. destruct s; cbn; by rewrite H. Qed.

Lemma forallb_take {A} (f : A -> bool) n l :
  forallb f l = true -> forallb f (take n l) = true.
Proof.
  revert n. induction l as [|x l IH]; intros [|n]; cbn; try done.
  intros [-> ?]%andb_true_iff. cbn. auto.
Qed.

(** The eight-digit pattern matches wherever a longer digit pattern does. *)
Lemma pat_digits_shorter n s g :
  8 <= n -> pat_digits n s = Some g -> pat_digits 8 s = Some (take 8 g).
Proof.
  intros Hn. unfold pat_digits.
  destruct (n <=? length s) eqn:Hlen; [|done].
  destruct (forallb is_digit (take n s)) eqn:Hd; [|done].
  intros [= <-]. apply Nat.leb_le in Hlen.
  rewrite take_take, Nat.min_l by lia.
  replace (8 <=? length s) with true by (symmetry; apply Nat.leb_le; lia).
  replace (take 8 s) with (take 8 (take n s)) by (rewrite take_take; f_equal; lia).
  by rewrite forallb_take.
Qed.

Lemma re_search_digits_shorter n s g :
  8 <= n -> re_search (pat_digits n) s = Some g ->
  exists m, re_search (pat_digits 8) s = Some m.
Proof.
  intros Hn. induction s as [|c s IH]; intros H.
  - exists (take 8 g). apply re_search_here.
    apply (pat_digits_shorter n); [done|].
    cbn [re_search] in H. by destruct (pat_digits n []).
  - cbn [re_search] in H |- *. destruct (pat_digits n (c :: s)) eqn:E.
    + apply (pat_digits_shorter _ _ _ Hn) in E. rewrite E. eauto.
    + destruct (pat_digits 8 (c :: s)); eauto.
Qed.

(** The date of a fourteen-digit stamp is the date of its first eight digits. *)
Lemma strptime_YmdHMS_prefix run d :
  strptime_YmdHMS run = Some d ->
  length run = 14 /\ forallb is_digit run = true /\ strptime_Ymd (take 8 run) = Some d.
Proof.
  unfold strptime_YmdHMS.
  do 15 (destruct run as [|? run]; try done).
  destruct (forallb _ _) eqn:Hd; [|done].
  unfold make_datetime_date. destruct (_ && _ && _); [|done].
  intros Hm. split; [done|]. split; [done|].
  cbn [take strptime_Ymd]. cbn [forallb] in Hd |- *.
  repeat (apply andb_true_iff in Hd as [? Hd]).
  by repeat (rewrite andb_true_intro; [|split; [done|]]).
Qed.

Lemma re_search_digits_run pre run post :
  Forall non_digit pre -> 8 <= length run -> forallb is_digit run = true ->
  re_search (pat_digits 8) (pre ++ run ++ post) = Some (take 8 run).
Proof.
  intros Hpre Hlen Hd. rewrite re_search_digits_skip by (done || lia).
  apply re_search_here. unfold pat_digits.
  rewrite length_app. replace (8 <=? _) with true by (symmetry; apply Nat.leb_le; lia).
  rewrite take_app_le by lia. by rewrite forallb_take.
Qed.

(** C10. In the file-name fallback of [get_image_date] (no EXIF capture tag
    resolves, the YYYY-MM-DD pattern yields nothing) the eight-digit pattern
    is tried before the fourteen-digit one and matches wherever a longer
    digit pattern matches; when its first match parses as a YYYYMMDD date
    that date is returned whatever the fourteen-digit branch would give, and
    a name whose only digit run is a valid fourteen-digit stamp gets its
    date from the first eight digits of the run. *)
Theorem eight_digits_before_fourteen exif mtime image_path :
  exif_capture_date exif = None ->
  re_search pat_iso (basename image_path) ≫= strptime_Y_m_d = None ->
  (forall m d,
      re_search (pat_digits 8) (basename image_path) = Some m ->
      strptime_Ymd m = Some d ->
      get_image_date exif mtime image_path = d)
  /\ (forall n g, 8 <= n ->
      re_search (pat_digits n) (basename image_path) = Some g ->
      exists m, re_search (pat_digits 8) (basename image_path) = Some m)
  /\ (forall pre run post d,
      basename image_path = pre ++ run ++ post ->
      Forall non_digit pre -> Forall non_digit post ->
      strptime_YmdHMS run = Some d ->
      re_search (pat_digits 8) (basename image_path) = Some (take 8 run)
      /\ strptime_Ymd (take 8 run) = Some d
      /\ get_image_date exif mtime image_path = d).
Proof.
  intros Hexif Hiso.
  assert (H8 : forall m d,
      re_search (pat_digits 8) (basename image_path) = Some m ->
      strptime_Ymd m = Some d -> get_image_date exif mtime image_path = d).
  { intros m d Hm Hd. unfold get_image_date.
    rewrite Hexif. cbn zeta. rewrite Hiso, Hm. cbn. by rewrite Hd. }
  split; [exact H8|]. split.
  - intros n g Hn Hg. by eapply re_search_digits_shorter.
  - intros pre run post d Hname Hpre _ Hrun.
    apply strptime_YmdHMS_prefix in Hrun as (Hlen & Hd & Hymd).
    assert (Hs : re_search (pat_digits 8) (basename image_path) = Some (take 8 run)).
    { rewrite Hname. apply re_search_digits_run; [done|lia|done]. }
    eauto.
Qed.

Lemma eight_digits_before_fourteen_witness :
  get_image_date None (mk_date 2000 1 1) (lit "/in/IMG_20240601123456.jpg")
  = mk_date 2024 6 1.
Proof.
  destruct (eight_digits_before_fourteen
              None (mk_date 2000 1 1) (lit "/in/IMG_20240601123456.jpg"))
    as (_ & _ & H); [vm_compute; reflexivity ..|].
  destruct (H (lit "IMG_") (lit "20240601123456") (lit ".jpg") (mk_date 2024 6 1))
    as (_ & _ & Hd); [vm_compute; reflexivity | repeat constructor ..| vm_compute; reflexivity |].
  exact Hd.
Defined.

(** The fourteen-digit branch is reached when the first eight-digit match
    is no date. *)
Example fourteen_digit_branch :
  get_image_date None (mk_date 2000 1 1) (lit "/in/99999999_20240102030405.jpg")
  = mk_date 2024 1 2.
Proof. vm_compute. reflexivity. Qed.

(** ** Scan and deduplication *)

Lemma scan_paths_first_seen w l st :
  (foldl (scan_path w) st l).1
  = st.1 ++ (photo_of w <$> first_seen (get_image_hash w) st.2 l).
Proof.
  revert st. induction l as [|x l IH]; intros st; cbn [foldl first_seen].
  - by rewrite app_nil_r.
  - rewrite IH. unfold scan_path. case_bool_decide; [done|].
    cbn. by rewrite <- app_assoc.
Qed.

Lemma scan_dir_paths w st root fs :
  foldl (scan_file w root) st fs
  = foldl (scan_path w) st (join root <$> filter (fun f => is_image f = true) fs).
Proof.
  revert st. induction fs as [|f fs IH]; intros st; [done|].
  cbn [foldl]. rewrite IH. unfold scan_file. rewrite filter_cons.
  destruct (is_image f) eqn:E.
  - by rewrite decide_True.
  - by rewrite decide_False.
Qed.

Lemma scan_candidates_from w walk st :
  foldl (scan_dir w) st walk = foldl (scan_path w) st (candidates walk).
Proof.
  revert st. induction walk as [|[root fs] walk IH]; intros st; [done|].
  cbn [foldl]. rewrite IH. unfold candidates. rewrite bind_cons, foldl_app.
  f_equal. apply scan_dir_paths.
Qed.

(** The records of a scan are those of the first-seen paths, in scan order. *)
Lemma scan_photo_info w walk :
  (scan w walk).1
  = photo_of w <$> first_seen (get_image_hash w) ∅ (candidates walk).
Proof. unfold scan. by rewrite scan_candidates_from, scan_paths_first_seen. Qed.

Lemma first_seen_spec h seen l x :
  x ∈ first_seen h seen l ->
  (h x ∉ seen) /\ exists l1 l2, l = l1 ++ x :: l2 /\ forall y, y ∈ l1 -> h y ≠ h x.
Proof.
  revert seen. induction l as [|x0 l IH]; intros seen; cbn [first_seen].
  - by intros ?%elem_of_nil.
  - case_bool_decide as Hin.
    + intros (Hx & l1 & l2 & -> & Hl1)%IH. split; [done|].
      exists (x0 :: l1), l2. split; [done|].
      intros y [->|?]%elem_of_cons; [congruence|auto].
    + intros [->|Hx]%elem_of_cons.
      * split; [done|]. exists [], l. split; [done|]. by intros y ?%elem_of_nil.
      * apply IH in Hx as (Hx & l1 & l2 & -> & Hl1).
        apply not_elem_of_union in Hx as [Hne%not_elem_of_singleton Hx].
        split; [done|]. exists (x0 :: l1), l2. split; [done|].
        intros y [->|?]%elem_of_cons; [congruence|auto].
Qed.

Lemma first_seen_count h seen l hv :
  length (filter (fun x => h x = hv) (first_seen h seen l))
  = if decide (hv ∈ seen) then 0 else if decide (hv ∈ h <$> l) then 1 else 0.
Proof.
  revert seen. induction l as [|x0 l IH]; intros seen; cbn [first_seen].
  - destruct (decide (hv ∈ seen)); [done|]. by rewrite decide_False by apply not_elem_of_nil.
  - case_bool_decide as Hin.
    + rewrite IH. destruct (decide (hv ∈ seen)); [done|].
      rewrite fmap_cons. destruct (decide (hv ∈ h <$> l)) as [?|Hn].
      * rewrite decide_True; [done|by right].
      * rewrite decide_False; [done|].
        intros [->|?]%elem_of_cons; done.
    + rewrite filter_cons, fmap_cons. destruct (decide (h x0 = hv)) as [<-|Hne].
      * cbn [length]. rewrite IH. rewrite decide_True by set_solver.
        rewrite decide_False by done. rewrite decide_True by (by left). done.
      * rewrite IH. destruct (decide (hv ∈ seen)).
        -- rewrite decide_True by set_solver. done.
        -- rewrite decide_False
             by (apply not_elem_of_union; split; [apply not_elem_of_singleton; congruence|done]).
           destruct (decide (hv ∈ h <$> l)) as [?|Hn].
           ++ rewrite decide_True; [done|by right].
           ++ rewrite decide_False; [done|].
              intros [->|?]%elem_of_cons; done.
Qed.

(** A path scanned after another path with the same fingerprint is not
    kept (the candidate paths being distinct). *)
Lemma later_same_hash_dropped h l i j p q :
  NoDup l -> l !! i = Some p -> l !! j = Some q -> i < j -> h p = h q ->
  q ∉ first_seen h ∅ l.
Proof.
  intros Hnd Hi Hj Hij Hh (_ & l1 & l2 & -> & Hl1)%first_seen_spec.
  assert (j = length l1) as ->.
  { eapply NoDup_lookup; [done..|]. by rewrite list_lookup_middle. }
  rewrite lookup_app_l in Hi by done.
  apply list_elem_of_lookup_2 in Hi. by apply Hl1 in Hi.
Qed.

(** ** Lists: prefixes, filters, slices *)

Lemma prefix_filter {A} (P : A -> Prop) `{!forall x, Decision (P x)} (l1 l2 : list A) :
  l1 `prefix_of` l2 -> filter P l1 `prefix_of` filter P l2.
Proof. intros [k ->]. rewrite filter_app. by eexists. Qed.

Lemma prefix_sublist {A} (l1 l2 : list A) :
  l1 `prefix_of` l2 -> l1 `sublist_of` l2.
Proof. intros [k ->]. by apply sublist_inserts_r. Qed.

Lemma filter_fmap {A B} (f : A -> B) (P : B -> Prop) `{!forall x, Decision (P x)}
    (l : list A) :
  filter P (f <$> l) = f <$> filter (fun x => P (f x)) l.
Proof.
  induction l as [|x l IH]; [done|].
  rewrite fmap_cons, !filter_cons, IH. by destruct (decide (P (f x))).
Qed.

Lemma filter_none {A} (P : A -> Prop) `{!forall x, Decision (P x)} (l : list A) :
  (forall x, x ∈ l -> ~ P x) -> filter P l = [].
Proof.
  induction l as [|x l IH]; intros Hall; [done|].
  rewrite filter_cons_False by (apply Hall; left).
  apply IH. intros y Hy. apply Hall. by right.
Qed.

Lemma filter_sublist_mono {A} (P : A -> Prop) `{!forall x, Decision (P x)}
    (l1 l2 : list A) :
  l1 `sublist_of` l2 -> filter P l1 `sublist_of` filter P l2.
Proof.
  induction 1 as [|x l1 l2 _ IH|x l1 l2 _ IH]; [done| |].
  - rewrite !filter_cons. destruct (decide (P x)); [by constructor|done].
  - rewrite filter_cons. destruct (decide (P x)); [by constructor|done].
Qed.

Lemma slice_to_prefix {A} (n : Z) (l : list A) : slice_to n l `prefix_of` l.
Proof. unfold slice_to. destruct (0 <=? n)%Z; apply prefix_take. Qed.

Lemma slice_to_length {A} (n : Z) (l : list A) :
  (0 <= n)%Z -> (Z.of_nat (length (slice_to n l)) <= n)%Z.
Proof.
  intros Hn. unfold slice_to.
  replace (0 <=? n)%Z with true by (symmetry; by apply Z.leb_le).
  rewrite length_take. lia.
Qed.

Lemma foldl_extend {A B} (f : A -> list B) (acc : list B) (l : list A) :
  foldl (fun sel x => sel ++ f x) acc l = acc ++ (l ≫= f).
Proof.
  revert acc. induction l as [|x l IH]; intros acc; cbn [foldl].
  - by rewrite app_nil_r.
  - by rewrite IH, bind_cons, app_assoc.
Qed.

(** ** The sort is a stable permutation *)

Lemma insert_desc_perm x l : insert_desc x l ≡ₚ x :: l.
Proof.
  induction l as [|y l IH]; cbn [insert_desc]; [done|].
  destruct (score y <=? score x)%Z; [done|].
  rewrite IH. apply perm_swap.
Qed.

Lemma sorted_desc_perm l : sorted_desc l ≡ₚ l.
Proof.
  induction l as [|x l IH]; cbn [sorted_desc]; [done|].
  by rewrite insert_desc_perm, IH.
Qed.

Lemma elem_of_sorted_desc x l : x ∈ sorted_desc l <-> x ∈ l.
Proof. by rewrite sorted_desc_perm. Qed.

Lemma insert_desc_descending x l : descending l -> descending (insert_desc x l).
Proof.
  unfold descending. induction 1 as [|y l Hl IH Hy]; cbn [insert_desc].
  - repeat constructor.
  - destruct (score y <=? score x)%Z eqn:E.
    + apply Z.leb_le in E. constructor; [by constructor|].
      constructor; [done|]. eapply Forall_impl; [exact Hy|]. cbn. lia.
    + apply Z.leb_gt in E. constructor; [done|].
      rewrite insert_desc_perm. constructor; [lia|done].
Qed.

(** The sort returns its argument in descending order of score. *)
Lemma sorted_desc_descending l : descending (sorted_desc l).
Proof.
  induction l as [|x l IH]; cbn [sorted_desc]; [constructor|].
  by apply insert_desc_descending.
Qed.

Section stability.
Context (P : PhotoInfo -> Prop) `{!forall r, Decision (P r)}.
Hypothesis same_score : forall a b, P a -> P b -> score a = score b.

Lemma filter_insert_desc x l :
  filter P (insert_desc x l) = filter P (x :: l).
Proof.
  induction l as [|y l IH]; cbn [insert_desc]; [done|].
  destruct (score y <=? score x)%Z eqn:E; [done|].
  apply Z.leb_gt in E.
  rewrite filter_cons, IH, !filter_cons.
  destruct (decide (P y)) as [Hy|Hy], (decide (P x)) as [Hx|Hx]; try done.
  specialize (same_score _ _ Hx Hy). lia.
Qed.

(** Records of one score keep their order. *)
Lemma filter_sorted_desc l : filter P (sorted_desc l) = filter P l.
Proof.
  induction l as [|x l IH]; cbn [sorted_desc]; [done|].
  by rewrite filter_insert_desc, !filter_cons, IH.
Qed.
End stability.

(** ** Grouping by date *)

Lemma events_append_keys events d info :
  (events_append events d info).*1
  = if decide (d ∈ events.*1) then events.*1 else events.*1 ++ [d].
Proof.
  induction events as [|[k v] events IH]; cbn [events_append].
  - by rewrite decide_False by apply not_elem_of_nil.
  - destruct (decide (k = d)) as [->|Hne]; cbn [fmap list_fmap fst].
    + by rewrite decide_True by left.
    + change (list_fmap _ _ fst ?l) with (l.*1). rewrite IH.
      destruct (decide (d ∈ events.*1)).
      * by rewrite decide_True by (by right).
      * rewrite decide_False; [done|]. intros [?|?]%elem_of_cons; done.
Qed.

Lemma events_append_lookup events d info k :
  ev_lookup k (events_append events d info)
  = if decide (k = d) then ev_lookup d events ++ [info] else ev_lookup k events.
Proof.
  induction events as [|[k0 v] events IH]; cbn [events_append ev_lookup].
  - destruct (decide (d = k)) as [->|]; [by rewrite decide_True|].
    by rewrite decide_False by done.
  - destruct (decide (k0 = d)) as [->|Hne]; cbn [ev_lookup].
    + destruct (decide (d = k)) as [->|]; [by rewrite decide_True|].
      by rewrite decide_False by done.
    + destruct (decide (k0 = k)) as [->|]; [by rewrite decide_False|done].
Qed.

Lemma group_snoc l info :
  group_photos_by_event (l ++ [info])
  = events_append (group_photos_by_event l) (date info) info.
Proof. unfold group_photos_by_event. by rewrite foldl_snoc. Qed.

(** Every date is a key once. *)
Lemma group_keys_NoDup l : NoDup (group_photos_by_event l).*1.
Proof.
  induction l as [|info l IH] using rev_ind; [constructor|].
  rewrite group_snoc, events_append_keys. case_decide; [done|].
  apply NoDup_app. split; [done|]. split; [|apply NoDup_singleton].
  by intros x ? ->%list_elem_of_singleton.
Qed.

(** Under a date are the records of that date, in scan order. *)
Lemma group_lookup l d : ev_lookup d (group_photos_by_event l) = on_date d l.
Proof.
  unfold on_date. induction l as [|info l IH] using rev_ind; [done|].
  rewrite group_snoc, events_append_lookup, filter_app, filter_cons, filter_nil.
  destruct (decide (d = date info)) as [->|Hne].
  - rewrite decide_True by done. by rewrite IH.
  - rewrite decide_False by done. by rewrite app_nil_r.
Qed.

Lemma ev_lookup_elem events k v :
  NoDup events.*1 -> (k, v) ∈ events -> ev_lookup k events = v.
Proof.
  induction events as [|[k0 v0] events IH]; [by intros _ ?%elem_of_nil|].
  cbn [fmap list_fmap fst]. change (list_fmap _ _ fst ?l) with (l.*1).
  intros [Hk0 Hnd]%NoDup_cons [[= -> ->]|Hin]%elem_of_cons; cbn [ev_lookup].
  - by rewrite decide_True.
  - rewrite decide_False; [by apply IH|].
    intros ->. apply Hk0. apply list_elem_of_fmap. by exists (k, v).
Qed.

Lemma group_elem l k v :
  (k, v) ∈ group_photos_by_event l -> v = on_date k l.
Proof.
  intros Hin. rewrite <- group_lookup. symmetry.
  apply ev_lookup_elem; [apply group_keys_NoDup|done].
Qed.

Lemma ev_lookup_absent events d : d ∉ events.*1 -> ev_lookup d events = [].
Proof.
  induction events as [|[k v] events IH]; [done|].
  cbn [fmap list_fmap fst ev_lookup]. change (list_fmap _ _ fst ?l) with (l.*1).
  intros [? ?]%not_elem_of_cons. rewrite decide_False by done. auto.
Qed.

Lemma slice_to_nil {A} (n : Z) : slice_to n (@nil A) = [].
Proof. unfold slice_to. destruct (0 <=? n)%Z; apply take_nil. Qed.

Lemma elem_of_slice_sorted x n l : x ∈ slice_to n (sorted_desc l) -> x ∈ l.
Proof.
  intros Hx. apply elem_of_sorted_desc.
  by eapply elem_of_prefix; [|apply slice_to_prefix].
Qed.

Lemma filter_filter_implies {A} (P Q : A -> Prop)
    `{!forall x, Decision (P x)} `{!forall x, Decision (Q x)} (l : list A) :
  (forall x, P x -> Q x) -> filter P (filter Q l) = filter P l.
Proof.
  intros HPQ. induction l as [|x l IH]; [done|].
  rewrite !filter_cons. destruct (decide (Q x)) as [HQ|HQ].
  - by rewrite filter_cons, IH.
  - rewrite IH. destruct (decide (P x)); [|done]. exfalso. auto.
Qed.

(** ** The pool of per-event survivors *)

Lemma select_top_photos_pool events top_n global_limit :
  select_top_photos events top_n global_limit
  = slice_to global_limit (sorted_desc (pool events top_n)).
Proof. unfold select_top_photos. by rewrite foldl_extend. Qed.

Lemma categorise_select_pool events top_n :
  Categorise.select_top_photos events top_n = pool events top_n.
Proof. unfold Categorise.select_top_photos. by rewrite foldl_extend. Qed.

(** Of the pool, only the survivors of the event of date [d] can satisfy a
    predicate that fixes the date to [d]. *)
Lemma filter_pool_events (P : PhotoInfo -> Prop) `{!forall r, Decision (P r)} d n events :
  (forall r, P r -> date r = d) ->
  NoDup events.*1 ->
  (forall k v r, (k, v) ∈ events -> r ∈ v -> date r = k) ->
  filter P (pool events n) = filter P (slice_to n (sorted_desc (ev_lookup d events))).
Proof.
  intros HP. unfold pool.
  induction events as [|[k v] events IH]; intros Hnd Hev.
  - cbn [ev_lookup sorted_desc]. by rewrite slice_to_nil.
  - cbn [fmap list_fmap fst] in Hnd. change (list_fmap _ _ fst ?l) with (l.*1) in Hnd.
    apply NoDup_cons in Hnd as [Hk Hnd].
    rewrite bind_cons, filter_app. cbn [ev_lookup snd].
    rewrite IH; [|done|intros ???? ?; eapply Hev; [by right|done]].
    destruct (decide (k = d)) as [->|Hne].
    + rewrite (ev_lookup_absent events d Hk). cbn [sorted_desc].
      by rewrite slice_to_nil, filter_nil, app_nil_r.
    + rewrite (filter_none P (slice_to n (sorted_desc v))); [done|].
      intros r Hr%elem_of_slice_sorted HPr.
      apply Hne. rewrite <- (HP r HPr). symmetry. eapply Hev; [by left|done].
Qed.

Lemma filter_pool (P : PhotoInfo -> Prop) `{!forall r, Decision (P r)} d n l :
  (forall r, P r -> date r = d) ->
  filter P (pool (group_photos_by_event l) n)
  = filter P (slice_to n (sorted_desc (on_date d l))).
Proof.
  intros HP. rewrite (filter_pool_events P d); [by rewrite group_lookup|done| |].
  - apply group_keys_NoDup.
  - intros k v r ->%group_elem Hr. unfold on_date in Hr.
    by apply list_elem_of_filter in Hr as [? _].
Qed.

(** The selection is drawn from the records given. *)
Lemma elem_of_pool l n r : r ∈ pool (group_photos_by_event l) n -> r ∈ l.
Proof.
  unfold pool. intros ([k v] & Hr & Hev)%list_elem_of_bind.
  apply elem_of_slice_sorted in Hr. apply group_elem in Hev as ->.
  unfold on_date in Hr. by apply list_elem_of_filter in Hr as [_ ?].
Qed.

Lemma elem_of_select l n g r :
  r ∈ select_top_photos (group_photos_by_event l) n g -> r ∈ l.
Proof.
  rewrite select_top_photos_pool. intros Hr%elem_of_slice_sorted.
  by eapply elem_of_pool.
Qed.

(** ** Caps *)

Lemma pool_cap l n d :
  (0 <= n)%Z -> (Z.of_nat (length (on_date d (pool (group_photos_by_event l) n))) <= n)%Z.
Proof.
  intros Hn. unfold on_date at 1.
  rewrite (filter_pool _ d) by done.
  etransitivity; [|by apply (slice_to_length n (sorted_desc (on_date d l)))].
  apply inj_le, length_filter.
Qed.

(** C3. Whatever records are given, with a per-event limit [N] and a global
    limit [G] (both counts, so not negative) the selection holds at most [N]
    records of any one capture date and at most [G] records in all; the
    selector without a global phase keeps the per-event bound. *)
Theorem selection_respects_caps (records : list PhotoInfo) (N G : Z) (d : caldate) :
  (0 <= N)%Z -> (0 <= G)%Z ->
  let selection := select_top_photos (group_photos_by_event records) N G in
  (Z.of_nat (length (on_date d selection)) <= N)%Z
  /\ (Z.of_nat (length selection) <= G)%Z
  /\ (Z.of_nat (length (on_date d
        (Categorise.select_top_photos (group_photos_by_event records) N))) <= N)%Z.
Proof.
  intros HN HG selection. subst selection.
  rewrite select_top_photos_pool, categorise_select_pool.
  split; [|split].
  - etransitivity; [|by apply (pool_cap records N d)].
    apply inj_le. unfold on_date.
    etransitivity.
    + apply prefix_length, prefix_filter, slice_to_prefix.
    + by rewrite sorted_desc_perm.
  - by apply slice_to_length.
  - by apply pool_cap.
Qed.

Lemma selection_respects_caps_witness :
  let records :=
    [ mk_info (lit "/in/a.jpg") 10 (mk_date 2024 6 1) None;
      mk_info (lit "/in/b.jpg") 90 (mk_date 2024 6 1) None;
      mk_info (lit "/in/c.jpg") 50 (mk_date 2024 6 1) None ] in
  let selection := select_top_photos (group_photos_by_event records) 2 150 in
  (Z.of_nat (length (on_date (mk_date 2024 6 1) selection)) <= 2)%Z
  /\ (Z.of_nat (length selection) <= 150)%Z
  /\ (Z.of_nat (length (on_date (mk_date 2024 6 1)
        (Categorise.select_top_photos (group_photos_by_event records) 2))) <= 2)%Z.
Proof. intros records. apply (selection_respects_caps records 2 150); lia. Defined.

(** The scenarios of the specification. *)
Example top_two_of_one_event :
  score <$> select_top_photos (group_photos_by_event
    [ mk_info (lit "/in/a.jpg") 10 (mk_date 2024 6 1) None;
      mk_info (lit "/in/b.jpg") 90 (mk_date 2024 6 1) None;
      mk_info (lit "/in/c.jpg") 50 (mk_date 2024 6 1) None ]) 2 150
  = [90; 50]%Z.
Proof. vm_compute. reflexivity. Qed.

Example global_cap_across_events :
  score <$> select_top_photos (group_photos_by_event
    [ mk_info (lit "/in/a.jpg") 95 (mk_date 2024 6 1) None;
      mk_info (lit "/in/b.jpg") 40 (mk_date 2024 6 2) None;
      mk_info (lit "/in/c.jpg") 80 (mk_date 2024 6 1) None;
      mk_info (lit "/in/d.jpg") 90 (mk_date 2024 6 2) None ]) 2 2
  = [95; 90]%Z.
Proof. vm_compute. reflexivity. Qed.

(** Outside the limits the bound is stated for: a negative number is a
    Python slice that counts from the end. *)
Example negative_limit_slices_from_the_end :
  score <$> select_top_photos (group_photos_by_event
    [ mk_info (lit "/in/a.jpg") 10 (mk_date 2024 6 1) None;
      mk_info (lit "/in/b.jpg") 90 (mk_date 2024 6 1) None;
      mk_info (lit "/in/c.jpg") 50 (mk_date 2024 6 1) None ]) (-1) 150
  = [90; 50]%Z.
Proof. vm_compute. reflexivity. Qed.

(** ** Order of equal scores *)

Lemma selected_class_prefix s d l n g :
  filter (in_class s d) (select_top_photos (group_photos_by_event l) n g)
  `prefix_of` filter (in_class s d) l.
Proof.
  assert (Hs : forall a b, in_class s d a -> in_class s d b -> score a = score b).
  { intros a b [-> _] [-> _]. done. }
  assert (Hd : forall r, in_class s d r -> date r = d) by (by intros r [_ ?]).
  rewrite select_top_photos_pool.
  etransitivity; [apply prefix_filter, slice_to_prefix|].
  rewrite (filter_sorted_desc _ Hs), (filter_pool _ d) by done.
  etransitivity; [apply prefix_filter, slice_to_prefix|].
  rewrite (filter_sorted_desc _ Hs). unfold on_date.
  by rewrite filter_filter_implies.
Qed.

Lemma before_selected_scan l n g a b :
  score a = score b -> date a = date b ->
  before a b (select_top_photos (group_photos_by_event l) n g) -> before a b l.
Proof.
  unfold before. intros Hs Hd Hab.
  apply (filter_sublist_mono (in_class (score a) (date a))) in Hab.
  rewrite filter_cons_True, filter_cons_True, filter_nil in Hab
    by (by unfold in_class).
  etransitivity; [exact Hab|].
  etransitivity; [apply prefix_sublist, selected_class_prefix|].
  apply sublist_filter.
Qed.

Lemma before_or {A} (a b : A) l :
  a ∈ l -> b ∈ l -> a ≠ b -> before a b l \/ before b a l.
Proof.
  unfold before. intros (l1 & l2 & ->)%list_elem_of_split Hb Hne.
  apply elem_of_app in Hb as [Hb|Hb].
  - right. apply list_elem_of_split in Hb as (k1 & k2 & ->).
    rewrite <- app_assoc. apply sublist_inserts_l. cbn.
    apply sublist_skip. apply sublist_inserts_l. by apply sublist_skip, sublist_nil_l.
  - left. apply elem_of_cons in Hb as [->|Hb]; [done|].
    apply sublist_inserts_l, sublist_skip. by apply singleton_sublist_l.
Qed.

Lemma before_asym {A} (a b : A) l :
  NoDup l -> before a b l -> before b a l -> False.
Proof.
  unfold before. intros Hnd (k1 & k2 & -> & Hb%singleton_sublist_l)%sublist_cons_l Hba.
  apply NoDup_app in Hnd as (_ & Hk1 & [Ha Hk2]%NoDup_cons).
  apply sublist_app_r in Hba as (x1 & x2 & Hx & Hx1 & Hx2).
  destruct x1 as [|y x1].
  - cbn in Hx. subst x2.
    apply sublist_cons_r in Hx2 as [Hx2|(l' & [= -> <-] & _)]; [|done].
    apply Ha. apply (sublist_cons_l b) in Hx2 as (? & ? & -> & ?%singleton_sublist_l).
    apply elem_of_app. right. by right.
  - injection Hx as <- _.
    apply (Hk1 b); [|by right].
    apply sublist_cons_l in Hx1 as (? & ? & -> & _).
    apply elem_of_app. right. by left.
Qed.

(** *** Equal scores on different dates *)

Lemma pool_before_keys events n a b :
  (forall k v r, (k, v) ∈ events -> r ∈ v -> date r = k) ->
  date a ≠ date b ->
  before a b (pool events n) -> before (date a) (date b) events.*1.
Proof.
  unfold before, pool. intros Hev Hne.
  induction events as [|[k v] events IH]; [by intros ?%sublist_nil_r|].
  rewrite bind_cons. cbn [fmap list_fmap fst snd].
  change (list_fmap _ _ fst ?l) with (l.*1).
  assert (Hrest : forall k' v' r, (k', v') ∈ events -> r ∈ v' -> date r = k')
    by (intros ???? ?; eapply Hev; [by right|done]).
  assert (Hhead : forall r, r ∈ slice_to n (sorted_desc v) -> date r = k)
    by (intros r Hr%elem_of_slice_sorted; eapply Hev; [by left|done]).
  intros (x1 & x2 & Hx & Hx1 & Hx2)%sublist_app_r.
  destruct x1 as [|y [|z x1]]; cbn in Hx.
  - subst x2. apply sublist_cons. by apply IH.
  - injection Hx as Hy Hx. subst y x2.
    assert (date a = k) as <-
      by (apply Hhead; eapply elem_of_sublist; [|exact Hx1]; by left).
    apply sublist_skip, singleton_sublist_l.
    apply singleton_sublist_l, list_elem_of_bind in Hx2 as ([k' v'] & Hb & Hin).
    apply elem_of_slice_sorted in Hb. cbn [snd] in Hb.
    rewrite (Hrest _ _ _ Hin Hb). apply list_elem_of_fmap. by exists (k', v').
  - injection Hx as Hy Hz Hx. subst y z. exfalso. apply Hne.
    rewrite (Hhead a), (Hhead b); [done| |];
      (eapply elem_of_sublist; [|exact Hx1]); [by right; left|by left].
Qed.

Lemma group_keys_elem l d : d ∈ (group_photos_by_event l).*1 <-> d ∈ date <$> l.
Proof.
  induction l as [|x l IH] using rev_ind; [done|].
  rewrite group_snoc, events_append_keys, fmap_app, elem_of_app. cbn.
  rewrite list_elem_of_singleton. case_decide as Hin.
  - rewrite IH. split; [by left|]. intros [?| ->]; [done|]. by apply IH.
  - rewrite elem_of_app, list_elem_of_singleton, IH. done.
Qed.

Lemma before_snoc_other {A} (a b x : A) l :
  b ≠ x -> (before a b (l ++ [x]) <-> before a b l).
Proof.
  unfold before. intros Hne. split; [|apply sublist_inserts_r].
  intros (x1 & x2 & Hx & Hx1 & Hx2)%sublist_app_r.
  apply sublist_cons_r in Hx2 as [->%sublist_nil_r|(l' & -> & ->%sublist_nil_r)].
  - rewrite app_nil_r in Hx. by subst.
  - destruct x1 as [|? [|? [|? ?]]]; simplify_eq/=.
Qed.

Lemma before_snoc_last {A} (a b : A) l :
  a ≠ b -> b ∉ l -> (before a b (l ++ [b]) <-> a ∈ l).
Proof.
  unfold before. intros Hne Hb. split.
  - intros (x1 & x2 & Hx & Hx1 & Hx2)%sublist_app_r.
    destruct x1 as [|y x1]; cbn in Hx; simplify_eq.
    + apply sublist_cons_r in Hx2 as [?%sublist_nil_r|(l' & [= -> <-] & _)]; done.
    + eapply elem_of_sublist; [|exact Hx1]. by left.
  - intros (l1 & l2 & ->)%list_elem_of_split.
    rewrite <- app_assoc. apply sublist_inserts_l. cbn.
    apply sublist_skip, sublist_inserts_l. by apply sublist_skip, sublist_nil_l.
Qed.

(** The keys of the events stand in the order in which the dates were first
    scanned. *)
Lemma group_keys_before l d e :
  d ≠ e -> e ∈ date <$> l ->
  (before d e (group_photos_by_event l).*1 <-> date_seen_first d e l).
Proof.
  intros Hne. induction l as [|x l IH] using rev_ind; [by intros ?%elem_of_nil|].
  intros He. rewrite group_snoc, events_append_keys.
  destruct (decide (e ∈ date <$> l)) as [Hel|Hel].
  - (* [e] was seen before [x] *)
    assert (before d e (if decide (date x ∈ (group_photos_by_event l).*1)
                        then (group_photos_by_event l).*1
                        else (group_photos_by_event l).*1 ++ [date x])
            <-> before d e (group_photos_by_event l).*1) as ->.
    { case_decide as Hx; [done|]. apply before_snoc_other.
      intros ->. by apply Hx, group_keys_elem. }
    rewrite (IH Hel). unfold date_seen_first. split.
    + intros (l1 & y & l2 & -> & Hy & Hl1). exists l1, y, (l2 ++ [x]).
      by rewrite <- app_assoc.
    + intros (l1 & y & l2 & Hl & Hy & Hl1).
      destruct l2 as [|z l2 _] using rev_ind.
      * apply app_inj_tail in Hl as [-> ->]. exfalso.
        apply list_elem_of_fmap in Hel as (z & -> & Hz). by apply (Hl1 z).
      * rewrite app_comm_cons, app_assoc in Hl. apply app_inj_tail in Hl as [-> ->].
        by exists l1, y, l2.
  - (* [x] is the first record of date [e] *)
    rewrite fmap_app, elem_of_app in He. destruct He as [?|He]; [done|].
    apply list_elem_of_singleton in He. subst e.
    rewrite decide_False by (by rewrite group_keys_elem).
    rewrite before_snoc_last by (done || by rewrite group_keys_elem).
    rewrite group_keys_elem. unfold date_seen_first. split.
    + intros (y & -> & (l1 & l2 & ->)%list_elem_of_split)%list_elem_of_fmap.
      exists l1, y, (l2 ++ [x]). split; [by rewrite <- app_assoc|]. split; [done|].
      intros z Hz Hdz. apply Hel. apply list_elem_of_fmap. exists z. split; [done|].
      apply elem_of_app. by left.
    + intros (l1 & y & l2 & Hl & Hy & Hl1).
      destruct l2 as [|z l2 _] using rev_ind.
      * apply app_inj_tail in Hl as [-> ->]. done.
      * rewrite app_comm_cons, app_assoc in Hl. apply app_inj_tail in Hl as [-> ->].
        apply list_elem_of_fmap. exists y. split; [done|].
        apply elem_of_app. right. by left.
Qed.

Lemma before_selected_pool l n g a b :
  score a = score b ->
  before a b (select_top_photos (group_photos_by_event l) n g) ->
  before a b (pool (group_photos_by_event l) n).
Proof.
  unfold before. intros Hs Hab.
  set (P := fun r : PhotoInfo => score r = score a).
  assert (HP : forall x y, P x -> P y -> score x = score y)
    by (unfold P; congruence).
  apply (filter_sublist_mono P) in Hab.
  rewrite filter_cons_True, filter_cons_True, filter_nil in Hab
    by (by unfold P).
  etransitivity; [exact Hab|]. rewrite select_top_photos_pool.
  etransitivity; [apply prefix_sublist, prefix_filter, slice_to_prefix|].
  rewrite (filter_sorted_desc P HP). apply sublist_filter.
Qed.

Lemma before_selected_dates l n g a b :
  score a = score b -> date a ≠ date b ->
  before a b (select_top_photos (group_photos_by_event l) n g) ->
  before (date a) (date b) (group_photos_by_event l).*1.
Proof.
  intros Hs Hd Hab%before_selected_pool; [|done].
  apply (pool_before_keys _ n); [|done..].
  intros k v r ->%group_elem Hr. unfold on_date in Hr.
  by apply list_elem_of_filter in Hr as [? _].
Qed.

(** C4 (amended). Two selected records of equal score stand in the
    selection in the order in which they were scanned when they have the
    same capture date (both sorts are stable, and the records of a date are
    pooled in scan order); when their dates differ, they stand in the order
    in which their dates were first scanned. *)
Theorem equal_scores_keep_scan_order_within_a_date
    (records : list PhotoInfo) (N G : Z) (a b : PhotoInfo) :
  NoDup records ->
  score a = score b ->
  let selection := select_top_photos (group_photos_by_event records) N G in
  a ∈ selection -> b ∈ selection ->
  (date a = date b -> (before a b selection <-> before a b records))
  /\ (date a ≠ date b ->
      (before a b selection <-> date_seen_first (date a) (date b) records)).
Proof.
  intros Hnd Hs selection Ha Hb. split; intros Hd.
  - split.
    + by apply before_selected_scan.
    + intros Hab.
      assert (a ≠ b) as Hne.
      { intros ->. apply (sublist_NoDup _ _ Hnd) in Hab.
        apply NoDup_cons in Hab as [Hab _]. apply Hab. by left. }
      destruct (before_or a b selection Ha Hb Hne) as [?|Hba]; [done|].
      exfalso. apply (before_asym a b records Hnd Hab).
      by apply (before_selected_scan records N G).
  - assert (Hbd : date b ∈ date <$> records).
    { apply list_elem_of_fmap. exists b. split; [done|]. by eapply elem_of_select. }
    rewrite <- (group_keys_before records _ _ Hd Hbd). split.
    + by apply before_selected_dates.
    + intros Hkeys.
      assert (a ≠ b) as Hne by (by intros ->).
      destruct (before_or a b selection Ha Hb Hne) as [?|Hba]; [done|].
      exfalso.
      apply (before_asym (date a) (date b) _ (group_keys_NoDup records) Hkeys).
      by apply (before_selected_dates records N G).
Qed.

Lemma equal_scores_keep_scan_order_within_a_date_witness :
  let a := mk_info (lit "/in/a.jpg") 50 (mk_date 2024 6 1) None in
  let b := mk_info (lit "/in/b.jpg") 50 (mk_date 2024 6 1) None in
  let c := mk_info (lit "/in/c.jpg") 70 (mk_date 2024 6 2) None in
  let selection := select_top_photos (group_photos_by_event [a; c; b]) 5 150 in
  before a b selection <-> before a b [a; c; b].
Proof.
  intros a b c.
  apply (equal_scores_keep_scan_order_within_a_date [a; c; b] 5 150 a b).
  - apply (bool_decide_unpack _). vm_compute. exact I.
  - reflexivity.
  - apply (bool_decide_unpack _). vm_compute. exact I.
  - apply (bool_decide_unpack _). vm_compute. exact I.
  - reflexivity.
Defined.

(** C4 (as stated, refuted). Equal scores alone do not fix the order: the
    pool lists the events in the order in which their dates were first seen,
    so a record of a later-seen date stays behind an equal-scored record of
    an earlier-seen date even when it was scanned first.  Here [b] is
    scanned before [c], both score 10, and [c] is selected before [b]. *)
Lemma equal_scores_across_dates_reordered :
  let a := mk_info (lit "/in/a.jpg") 5 (mk_date 2024 6 1) None in
  let b := mk_info (lit "/in/b.jpg") 10 (mk_date 2024 6 2) None in
  let c := mk_info (lit "/in/c.jpg") 10 (mk_date 2024 6 1) None in
  let selection :=
    select_top_photos (group_photos_by_event [a; b; c])
                      TOP_PHOTOS_PER_EVENT GLOBAL_LIMIT in
  score b = score c
  /\ before b c [a; b; c]
  /\ selection = [c; b; a]
  /\ ~ before b c selection.
Proof.
  intros a b c selection.
  assert (Hsel : selection = [c; b; a]) by (vm_compute; reflexivity).
  split; [reflexivity|]. split; [|split; [exact Hsel|]].
  - unfold before. apply sublist_cons, sublist_skip, sublist_skip, sublist_nil.
  - rewrite Hsel. unfold before. intros H.
    apply sublist_cons_r in H as [H|(? & [=] & _)].
    apply sublist_cons_r in H as [H|(l' & [= <-] & H)].
    + apply sublist_cons_r in H as [H|(? & [=] & _)].
      by apply sublist_nil_r in H.
    + apply sublist_cons_r in H as [H|(? & [=] & _)].
      by apply sublist_nil_r in H.
Qed.

(** ** Fingerprints and deduplication *)

(** C1 (the code departs from it). Two files that cannot be read both get
    the fingerprint [None]; the first puts [None] into [seen_hashes] and the
    second is then skipped as a duplicate, so it is never scored, grouped or
    selected. *)
Theorem unreadable_files_are_deduplicated :
  let w := sample_world [] [] [] [] in
  let r := main w [(lit "/in", [lit "a.jpg"; lit "b.jpg"])] (lit "/out") in
  get_image_hash w (lit "/in/a.jpg") = None
  /\ get_image_hash w (lit "/in/b.jpg") = None
  /\ path <$> photo_info r = [lit "/in/a.jpg"]
  /\ path <$> selected_photos r = [lit "/in/a.jpg"].
Proof. vm_compute. repeat split; reflexivity. Qed.

Lemma path_photo_of w (l : list str) : path <$> (photo_of w <$> l) = l.
Proof. induction l as [|x l IH]; [done|]. rewrite !fmap_cons, IH. done. Qed.

(** The same for any world: of the paths that cannot be read only the first
    scanned one is kept. *)
Lemma unreadable_later_dropped w walk i j p q :
  NoDup (candidates walk) ->
  candidates walk !! i = Some p -> candidates walk !! j = Some q -> i < j ->
  files w !! p = None -> files w !! q = None ->
  q ∉ path <$> (scan w walk).1.
Proof.
  intros Hnd Hi Hj Hij Hp Hq. rewrite scan_photo_info, path_photo_of.
  apply (later_same_hash_dropped _ _ i j p q Hnd Hi Hj Hij).
  unfold get_image_hash. by rewrite Hp, Hq.
Qed.

(** ** EXIF capture tags *)

(** C5 (the code departs from it). The loop runs over the items of the EXIF
    dictionary and returns at the first of the three tags it meets; here
    [DateTime] is listed before [DateTimeOriginal], whose value is a valid
    stamp, and the date of [DateTime] is returned. *)
Theorem exif_first_listed_capture_tag_wins :
  let exif := Some [ (306%N, lit "2021:05:05 10:00:00");
                     (36867%N, lit "2020:01:01 09:00:00") ] in
  TAGS 306 = Some "DateTime"%string
  /\ TAGS 36867 = Some "DateTimeOriginal"%string
  /\ strptime_exif (lit "2020:01:01 09:00:00") = Some (mk_date 2020 1 1)
  /\ get_image_date exif (mk_date 2000 1 1) (lit "/in/a.jpg") = mk_date 2021 5 5.
Proof. vm_compute. repeat split; reflexivity. Qed.

(** ** The copy loop *)

Lemma enumerate_lookup {A} (start : nat) (l : list A) i x :
  l !! i = Some x -> enumerate start l !! i = Some (start + i, x).
Proof.
  intros Hx. unfold enumerate.
  apply lookup_zip_with_Some. exists (start + i), x. split; [done|]. split; [|done].
  apply lookup_seq. split; [done|]. by eapply lookup_lt_Some.
Qed.

Lemma enumerate_length {A} (start : nat) (l : list A) :
  length (enumerate start l) = length l.
Proof. unfold enumerate. rewrite length_zip_with, length_seq. lia. Qed.

Lemma enumerate_lookup_inv {A} (start : nat) (l : list A) i item :
  enumerate start l !! i = Some item -> item.1 = start + i /\ l !! i = Some item.2.
Proof.
  intros Hitem.
  assert (Hlt : i < length l).
  { rewrite <- (enumerate_length start). by eapply lookup_lt_Some. }
  destruct (lookup_lt_is_Some_2 l i Hlt) as [x Hx].
  rewrite (enumerate_lookup start l i x Hx) in Hitem. by injection Hitem as <-.
Qed.

Section copy_loop.
Context (w : World) (output_folder : str) (total : nat).
Let step := copy_one w output_folder total.

Lemma copy_one_lines st item :
  (step st item).2 = st.2 ++ [copy_line w output_folder total st.1 item].
Proof.
  subst step. unfold copy_one, copy_line. destruct item as [idx info]. cbn [fst snd].
  by destruct (copy2 _ _ _ _).
Qed.

Lemma copy_lines_prefix st items : st.2 `prefix_of` (foldl step st items).2.
Proof.
  revert st. induction items as [|item items IH]; intros st; [done|].
  cbn [foldl]. etransitivity; [|apply IH].
  rewrite copy_one_lines. by apply prefix_app_r.
Qed.

Lemma copy_lines_length st items :
  length (foldl step st items).2 = length st.2 + length items.
Proof.
  revert st. induction items as [|item items IH]; intros st; cbn [foldl length]; [lia|].
  rewrite IH, copy_one_lines, length_app. cbn. lia.
Qed.

(** The line at position [i] is the one of item [i], decided by its own
    copy on the files as they are when the loop reaches it. *)
Lemma copy_line_at fs items i item :
  items !! i = Some item ->
  (foldl step (fs, []) items).2 !! i
  = Some (copy_line w output_folder total (foldl step (fs, []) (take i items)).1 item).
Proof.
  intros Hitem.
  rewrite <- (take_drop_middle items i item Hitem) at 1.
  rewrite foldl_app. cbn [foldl].
  eapply prefix_lookup_Some; [|apply copy_lines_prefix].
  rewrite copy_one_lines.
  assert (length (foldl step (fs, []) (take i items)).2 = i) as Hlen.
  { rewrite copy_lines_length, length_take. cbn.
    apply lookup_lt_Some in Hitem. lia. }
  rewrite lookup_app_r by lia. by rewrite Hlen, Nat.sub_diag.
Qed.
End copy_loop.

Lemma copy_selected_length w sel out fs :
  length (copy_selected_photos w sel out fs).2 = length sel.
Proof.
  unfold copy_selected_photos. by rewrite copy_lines_length, enumerate_length.
Qed.

Lemma copy_selected_line w sel out fs i info :
  sel !! i = Some info ->
  (copy_selected_photos w sel out fs).2 !! i
  = Some (copy_line w out (length sel) (copy_prefix w sel out fs i).1 (S i, info)).
Proof.
  intros Hinfo. unfold copy_selected_photos, copy_prefix.
  by apply copy_line_at, (enumerate_lookup 1).
Qed.

Lemma line_src_copy_line w out total fs item :
  line_src (copy_line w out total fs item) = path item.2.
Proof. unfold copy_line. by destruct (copy2 _ _ _ _). Qed.

(** Every printed line speaks of a selected record. *)
Lemma copy_selected_src w sel out fs ln :
  ln ∈ (copy_selected_photos w sel out fs).2 -> line_src ln ∈ path <$> sel.
Proof.
  intros (i & Hi)%list_elem_of_lookup_1.
  assert (Hlt : i < length sel).
  { rewrite <- (copy_selected_length w sel out fs). by eapply lookup_lt_Some. }
  destruct (lookup_lt_is_Some_2 sel i Hlt) as [info Hinfo].
  rewrite (copy_selected_line w sel out fs i info Hinfo) in Hi.
  injection Hi as <-. rewrite line_src_copy_line.
  apply list_elem_of_fmap. exists info. split; [done|].
  by eapply list_elem_of_lookup_2.
Qed.

(** ** One record per fingerprint *)

Lemma row_of_path info q : ("path"%string, CStr q) ∈ row_of info -> path info = q.
Proof.
  unfold row_of. rewrite !elem_of_cons, elem_of_nil.
  intros [[= ->]|[[=]|[[=]|[[=]|[]]]]]. done.
Qed.

(** C2. When two readable files hold the same bytes, exactly one record is
    kept for their fingerprint, and it is the record of the first scanned
    file with that fingerprint; a file scanned later with the same bytes has
    no record, is not selected, has no row in the report and is never
    copied.  The order of the scan is arbitrary; [os.walk] lists every path
    once. *)
Theorem first_scanned_duplicate_wins
    (w : World) (walk : list (str * list str)) (output_folder : str)
    (i j : nat) (p q : str) (b : list Byte.byte) :
  NoDup (candidates walk) ->
  candidates walk !! i = Some p -> candidates walk !! j = Some q -> i < j ->
  files w !! p = Some b -> files w !! q = Some b ->
  let r := main w walk output_folder in
  let h := Some (md5 w b) in
  (exists info l1 l2,
      filter (fun x => get_image_hash w (path x) = h) (photo_info r) = [info]
      /\ candidates walk = l1 ++ path info :: l2
      /\ forall y, y ∈ l1 -> get_image_hash w y ≠ h)
  /\ (q ∉ path <$> photo_info r)
  /\ (q ∉ path <$> selected_photos r)
  /\ (forall row, row ∈ report r -> ("path"%string, CStr q) ∉ row)
  /\ (forall ln, ln ∈ output r -> line_src ln ≠ q).
Proof.
  intros Hnd Hi Hj Hij Hp Hq r h.
  assert (Hhp : get_image_hash w p = h) by (unfold get_image_hash; by rewrite Hp).
  assert (Hhq : get_image_hash w q = h) by (unfold get_image_hash; by rewrite Hq).
  assert (Hinfo : photo_info r
    = photo_of w <$> first_seen (get_image_hash w) ∅ (candidates walk))
    by apply scan_photo_info.
  assert (Hq_info : q ∉ path <$> photo_info r).
  { rewrite Hinfo, path_photo_of.
    apply (later_same_hash_dropped _ _ i j p q Hnd Hi Hj Hij). congruence. }
  assert (Hq_sel : q ∉ path <$> selected_photos r).
  { intros (info & -> & Hin)%list_elem_of_fmap. apply Hq_info.
    apply list_elem_of_fmap. exists info. split; [done|].
    by apply elem_of_select in Hin. }
  split; [|split; [done|split; [done|split]]].
  - pose proof (first_seen_count (get_image_hash w) ∅ (candidates walk) h) as Hc.
    rewrite decide_False in Hc by apply not_elem_of_empty.
    rewrite decide_True in Hc.
    2:{ apply list_elem_of_fmap. exists p. split; [done|].
        by eapply list_elem_of_lookup_2. }
    destruct (filter _ (first_seen _ _ _)) as [|x [|??]] eqn:Hf; try done.
    assert (Hx : x ∈ first_seen (get_image_hash w) ∅ (candidates walk)).
    { eapply (list_elem_of_filter (fun x => get_image_hash w x = h)).
      rewrite Hf. by left. }
    assert (Hxh : get_image_hash w x = h).
    { eapply (list_elem_of_filter (fun x => get_image_hash w x = h)
                (first_seen (get_image_hash w) ∅ (candidates walk))).
      rewrite Hf. by left. }
    apply first_seen_spec in Hx as (_ & l1 & l2 & Hl & Hl1).
    exists (photo_of w x), l1, l2. split; [|split; [done|]].
    + rewrite Hinfo, filter_fmap. cbn [photo_of path]. by rewrite Hf.
    + intros y Hy. rewrite <- Hxh. by apply Hl1.
  - intros row (info & -> & Hin)%list_elem_of_fmap Hrow%row_of_path.
    apply Hq_sel. apply list_elem_of_fmap. by exists info.
  - intros ln Hln%copy_selected_src Heq. apply Hq_sel. by rewrite <- Heq.
Qed.

Lemma first_scanned_duplicate_wins_witness :
  let r := main w1 [(lit "/in", [lit "a.jpg"; lit "b.jpg"; lit "c.JPG"])] (lit "/out") in
  lit "/in/c.JPG" ∉ path <$> selected_photos r.
Proof.
  intros r.
  destruct (first_scanned_duplicate_wins w1
              [(lit "/in", [lit "a.jpg"; lit "b.jpg"; lit "c.JPG"])] (lit "/out")
              0 2 (lit "/in/a.jpg") (lit "/in/c.JPG") (bytes_of "AAA"))
    as (_ & _ & H & _);
    [ apply (bool_decide_unpack _); vm_compute; exact I
    | vm_compute; reflexivity | vm_compute; reflexivity | lia
    | vm_compute; reflexivity | vm_compute; reflexivity | exact H ].
Defined.

(** ** Copy failures and the report *)

(** C7 (as stated, refuted). The copy of the first-ranked record fails; the
    failure is printed for that record and the second record is still
    copied, but the report is built from the selection and keeps the row of
    the record whose copy failed. *)
Lemma failed_copy_keeps_its_report_row :
  let r := main w2 [(lit "/in", [lit "a.jpg"; lit "b.jpg"])] (lit "/out") in
  output r = [ ErrorCopying (lit "/in/b.jpg");
               Copied 2 2 (lit "/in/a.jpg") (lit "/out/2024-06-01_NoLocation_in_2.jpg") ]
  /\ fs_after r !! lit "/out/2024-06-01_NoLocation_in_1.jpg" = None
  /\ report r !! 0
     = Some [ ("path", CStr (lit "/in/b.jpg")); ("score", CNum 90);
              ("date", CDate (mk_date 2024 6 1)); ("location", CNone) ]%string.
Proof. vm_compute. repeat split; reflexivity. Qed.

(** C7 (amended). Every selected record gets its own line, decided by its
    own copy on the files as they are when the loop reaches it: an error
    line when the copy raises, a [Copied] line otherwise, whatever happened
    to the records before it; the loop prints one line per selected record,
    and the report holds the row of the record whether or not its copy
    failed. *)
Theorem copy_failure_is_per_item
    (w : World) (walk : list (str * list str)) (output_folder : str)
    (i : nat) (info : PhotoInfo) :
  let r := main w walk output_folder in
  selected_photos r !! i = Some info ->
  let fs_i := (copy_prefix w (selected_photos r) output_folder (files w) i).1 in
  let dst := destination output_folder (S i) info in
  length (output r) = length (selected_photos r)
  /\ (copy2 w (path info) dst fs_i = None ->
      output r !! i = Some (ErrorCopying (path info)))
  /\ (is_Some (copy2 w (path info) dst fs_i) ->
      output r !! i
      = Some (Copied (S i) (length (selected_photos r)) (path info) dst))
  /\ report r !! i = Some (row_of info).
Proof.
  intros r Hinfo fs_i dst. subst r. cbn [main output selected_photos report] in *.
  split; [apply copy_selected_length|].
  pose proof (copy_selected_line w _ output_folder (files w) i info Hinfo) as Hline.
  unfold copy_line in Hline. cbn [fst snd] in Hline. fold fs_i dst in Hline.
  split; [|split].
  - intros Hfail. by rewrite Hfail in Hline.
  - intros [fs' Hok]. by rewrite Hok in Hline.
  - by rewrite list_lookup_fmap, Hinfo.
Qed.

Lemma copy_failure_is_per_item_witness :
  let r := main w2 [(lit "/in", [lit "a.jpg"; lit "b.jpg"])] (lit "/out") in
  output r !! 0 = Some (ErrorCopying (lit "/in/b.jpg"))
  /\ report r !! 0 = Some (row_of (mk_info (lit "/in/b.jpg") 90 (mk_date 2024 6 1) None)).
Proof.
  intros r.
  destruct (copy_failure_is_per_item w2 [(lit "/in", [lit "a.jpg"; lit "b.jpg"])]
              (lit "/out") 0 (mk_info (lit "/in/b.jpg") 90 (mk_date 2024 6 1) None))
    as (_ & Hfail & _ & Hrow); [vm_compute; reflexivity|].
  split; [|exact Hrow].
  apply Hfail. vm_compute. reflexivity.
Defined.

(** C8 (as stated, refuted). The rows are the dictionaries of the selection:
    the destination path computed by the copy loop is in no cell. *)
Lemma report_row_lacks_destination :
  let r := main w1 [(lit "/in", [lit "a.jpg"; lit "b.jpg"; lit "c.JPG"])] (lit "/out") in
  let dst := lit "/out/2024-06-01_NoLocation_in_1.jpg" in
  output r !! 0 = Some (Copied 1 2 (lit "/in/b.jpg") dst)
  /\ exists row, report r !! 0 = Some row
       /\ row.*1 = ["path"; "score"; "date"; "location"]%string
       /\ CStr dst ∉ row.*2.
Proof.
  intros r dst. split; [vm_compute; reflexivity|].
  eexists. split; [vm_compute; reflexivity|]. split; [reflexivity|].
  cbn. rewrite !not_elem_of_cons. repeat split; try discriminate.
  apply not_elem_of_nil.
Qed.

(** C8 (amended). The report has one row per selected record, in rank
    order, and the row of a record holds exactly its original path, its
    quality score, its capture date and its location (empty when there is
    none); no destination path is recorded. *)
Theorem report_rows_mirror_selection
    (w : World) (walk : list (str * list str)) (output_folder : str)
    (i : nat) (info : PhotoInfo) :
  let r := main w walk output_folder in
  selected_photos r !! i = Some info ->
  length (report r) = length (selected_photos r)
  /\ report r !! i
     = Some [ ("path", CStr (path info)); ("score", CNum (score info));
              ("date", CDate (date info));
              ("location", from_option CStr CNone (location info)) ]%string.
Proof.
  intros r Hinfo. subst r. cbn [main report selected_photos] in *.
  split; [apply length_fmap|]. by rewrite list_lookup_fmap, Hinfo.
Qed.

Lemma report_rows_mirror_selection_witness :
  let r := main w1 [(lit "/in", [lit "a.jpg"; lit "b.jpg"; lit "c.JPG"])] (lit "/out") in
  length (report r) = 2
  /\ report r !! 1
     = Some [ ("path", CStr (lit "/in/a.jpg")); ("score", CNum 10);
              ("date", CDate (mk_date 2024 6 1)); ("location", CNone) ]%string.
Proof.
  intros r.
  destruct (report_rows_mirror_selection w1
              [(lit "/in", [lit "a.jpg"; lit "b.jpg"; lit "c.JPG"])] (lit "/out")
              1 (mk_info (lit "/in/a.jpg") 10 (mk_date 2024 6 1) None))
    as [Hlen Hrow]; [vm_compute; reflexivity|].
  split; [|exact Hrow]. etransitivity; [exact Hlen|]. vm_compute. reflexivity.
Defined.

(** ** Paths and extensions *)

Lemma lower_char_cases c :
  lower_char c = c
  \/ (non_digit c /\ c ≠ extsep /\ non_digit (lower_char c) /\ lower_char c ≠ extsep).
Proof.
  destruct c as [[] [] [] [] [] [] [] []];
    first [ left; reflexivity
          | right; repeat split; first [reflexivity | discriminate] ].
Qed.

Lemma lower_char_dot c : lower_char c = extsep -> c = extsep.
Proof. destruct (lower_char_cases c) as [->|(_ & _ & _ & ?)]; done. Qed.

Lemma lower_char_plain c x :
  lower_char c = x -> non_digit x -> x ≠ extsep -> non_digit c /\ c ≠ extsep.
Proof.
  intros <- Hd Hx. destruct (lower_char_cases c) as [Heq|(? & ? & _)]; [|done].
  by rewrite Heq in Hd, Hx.
Qed.

Lemma rfind_from_spec c s i0 :
  (0 <= i0)%Z ->
  (rfind_from i0 c s = (-1)%Z /\ c ∉ s)
  \/ exists l1 l2, s = l1 ++ c :: l2
       /\ rfind_from i0 c s = (i0 + Z.of_nat (length l1))%Z /\ c ∉ l2.
Proof.
  revert i0. induction s as [|x s IH]; intros i0 Hi0; cbn [rfind_from].
  - left. split; [done|apply not_elem_of_nil].
  - destruct (IH (i0 + 1)%Z ltac:(lia)) as [[Hj Hc]|(l1 & l2 & -> & Hj & Hc)].
    + rewrite Hj. cbn. case_bool_decide as Hx.
      * right. subst x. exists [], s. split; [done|]. split; [cbn; lia|done].
      * left. split; [done|]. apply not_elem_of_cons. split; [congruence|done].
    + right. rewrite Hj.
      replace (0 <=? _)%Z with true by (symmetry; apply Z.leb_le; lia).
      exists (x :: l1), l2. split; [done|]. split; [cbn [length]; lia|done].
Qed.

Lemma rfind_spec c s :
  (rfind c s = (-1)%Z /\ c ∉ s)
  \/ exists l1 l2, s = l1 ++ c :: l2
       /\ rfind c s = Z.of_nat (length l1) /\ c ∉ l2.
Proof.
  destruct (rfind_from_spec c s 0 ltac:(lia)) as [?|(l1 & l2 & ? & ? & ?)]; [by left|].
  right. exists l1, l2. by rewrite Z.add_0_l in *.
Qed.

(** The extension is empty or runs from the last dot to the end. *)
Lemma splitext_ext p :
  (splitext p).2 = []
  \/ exists t, (splitext p).2 = extsep :: t /\ (extsep ∉ t)
       /\ (splitext p).2 `suffix_of` p.
Proof.
  unfold splitext. destruct (_ && _) eqn:Hc; [|by left].
  apply andb_true_iff in Hc as [Hlt%Z.ltb_lt _]. right. cbn [snd].
  destruct (rfind_spec sep p) as [[Hs _]|(? & ? & _ & Hs & _)];
    (destruct (rfind_spec extsep p) as [[Hd _]|(l1 & l2 & Hp & Hd & Hl2)]; [lia|]).
  all: exists l2; rewrite Hd, Nat2Z.id; split; [|split; [done|apply suffix_drop]].
  all: rewrite Hp at 1; by rewrite drop_app_length.
Qed.

Lemma basename_suffix p : basename p `suffix_of` p.
Proof. apply suffix_drop. Qed.

Lemma join_suffix a b : b `suffix_of` join a b.
Proof.
  unfold join. destruct (startswith _ _); [done|].
  destruct (_ || _); [by apply suffix_app_r|].
  by apply suffix_app_r, suffix_app_r.
Qed.

Lemma endswith_lower file suf :
  endswith (lower file) suf = true ->
  exists t, t `suffix_of` file /\ lower t = suf.
Proof.
  unfold endswith. intros [_ Hd%bool_decide_eq_true]%andb_true_iff.
  exists (drop (length (lower file) - length suf) file).
  split; [apply suffix_drop|]. unfold lower in *. by rewrite fmap_drop.
Qed.

(** A name that passes the extension filter ends with a dot followed by
    characters that are neither dots nor digits. *)
Lemma is_image_tail file :
  is_image file = true ->
  exists letters, (extsep :: letters) `suffix_of` file
    /\ (extsep ∉ letters) /\ Forall non_digit letters.
Proof.
  unfold is_image. cbn zeta.
  intros [[H|H]%orb_true_iff|H]%orb_true_iff;
    apply endswith_lower in H as (t & Ht & Hl);
    unfold lower in Hl;
    repeat (destruct t as [|? t]; try discriminate Hl);
    cbn in Hl; simplify_eq/=;
    repeat match goal with
    | H : lower_char _ = "."%char |- _ => apply lower_char_dot in H; subst
    | H : lower_char _ = _ |- _ =>
        apply lower_char_plain in H as [? ?]; [|reflexivity|discriminate]
    end;
    eexists; (split; [exact Ht|]);
    (split; [rewrite !not_elem_of_cons; repeat split; try congruence; apply not_elem_of_nil
            |repeat constructor; done]).
Qed.

(** The extension of a path whose file name passes the filter holds no
    digit. *)
Lemma image_ext_no_digit root file :
  is_image file = true ->
  Forall non_digit (splitext (basename (join root file))).2.
Proof.
  intros (letters & Htail & Hdot & Hletters)%is_image_tail.
  destruct (splitext_ext (basename (join root file))) as [->|(t & Hext & Ht & Hsuf)];
    [constructor|].
  assert (Hs1 : (splitext (basename (join root file))).2 `suffix_of` join root file).
  { etransitivity; [exact Hsuf|apply basename_suffix]. }
  assert (Hs2 : (extsep :: letters) `suffix_of` join root file).
  { etransitivity; [exact Htail|apply join_suffix]. }
  rewrite Hext in *.
  assert (extsep :: t = extsep :: letters) as ->.
  { destruct (suffix_weak_total _ _ _ Hs1 Hs2) as [H|H];
      apply suffix_cons_inv in H as [H|H]; try done.
    - exfalso. apply Hdot. eapply elem_of_suffix; [|exact H]. by left.
    - exfalso. apply Ht. eapply elem_of_suffix; [|exact H]. by left. }
  constructor; [reflexivity|done].
Qed.

(** ** Decimal ranks *)

Lemma string_of_uint_digits d :
  forallb is_digit (list_ascii_of_string (NilEmpty.string_of_uint d)) = true.
Proof. induction d; cbn [NilEmpty.string_of_uint list_ascii_of_string forallb]; by rewrite ?IHd. Qed.

Lemma str_of_nat_digits n : forallb is_digit (str_of_nat n) = true.
Proof. apply string_of_uint_digits. Qed.

Lemma str_of_nat_inj n m : str_of_nat n = str_of_nat m -> n = m.
Proof.
  unfold str_of_nat. intros H.
  apply (f_equal string_of_list_ascii) in H.
  rewrite !string_of_list_ascii_of_string in H.
  apply (f_equal NilEmpty.uint_of_string) in H. rewrite !NilEmpty.usu in H.
  injection H as H. by apply Unsigned.to_uint_inj.
Qed.

Lemma str_of_nat_nonempty n : str_of_nat n ≠ [].
Proof.
  unfold str_of_nat. intros H.
  assert (Hn : Nat.to_uint n ≠ Decimal.Nil).
  { rewrite <- (Unsigned.of_to n) at 1. rewrite Unsigned.to_of.
    apply DecimalFacts.unorm_nonnil. }
  destruct (Nat.to_uint n); done.
Qed.

Lemma drop_while_all {A} (f : A -> bool) l1 l2 :
  forallb f l1 = true -> drop_while f (l1 ++ l2) = drop_while f l2.
Proof.
  induction l1 as [|x l1 IH]; [done|]. cbn.
  intros [-> ?]%andb_true_iff. auto.
Qed.

Lemma take_while_stop {A} (f : A -> bool) l1 x l2 :
  forallb f l1 = true -> f x = false -> take_while f (l1 ++ x :: l2) = l1.
Proof.
  intros Hl Hx. induction l1 as [|y l1 IH]; cbn.
  - by rewrite Hx.
  - cbn in Hl. apply andb_true_iff in Hl as [-> ?]. f_equal. auto.
Qed.

Lemma forallb_rev {A} (f : A -> bool) l : forallb f (rev l) = forallb f l.
Proof.
  induction l as [|x l IH]; [done|]. cbn.
  rewrite forallb_app, IH. cbn. rewrite andb_true_r. apply andb_comm.
Qed.

Lemma non_digit_forallb l :
  Forall non_digit l -> forallb (fun c => negb (is_digit c)) l = true.
Proof. induction 1 as [|c l Hc _ IH]; [done|]. cbn. by rewrite Hc, IH. Qed.

(** The digits of the rank can be read back from a name. *)
Lemma rank_digits_name pre d e :
  forallb is_digit d = true -> d ≠ [] -> Forall non_digit e ->
  rank_digits (pre ++ "_"%char :: d ++ e) = d.
Proof.
  intros Hd Hne He. unfold rank_digits.
  replace (pre ++ "_"%char :: d ++ e) with ((pre ++ ["_"%char]) ++ d ++ e)
    by (by rewrite <- app_assoc).
  rewrite !rev_app_distr, <- app_assoc.
  rewrite drop_while_all by (rewrite forallb_rev; by apply non_digit_forallb).
  change (rev ["_"%char]) with ["_"%char].
  assert (Hrd : forallb is_digit (rev d) = true) by (by rewrite forallb_rev).
  destruct (rev d) as [|c rd] eqn:Hrev.
  { exfalso. apply Hne. by rewrite <- (rev_involutive d), Hrev. }
  cbn [app drop_while]. cbn in Hrd. apply andb_true_iff in Hrd as [Hc Hrd].
  rewrite Hc. cbn [negb].
  change (c :: rd ++ "_"%char :: rev pre) with ((c :: rd) ++ "_"%char :: rev pre).
  rewrite take_while_stop; [|cbn; by rewrite Hc, Hrd|reflexivity].
  by rewrite <- Hrev, rev_involutive.
Qed.

(** ** Output names *)

Lemma new_name_shape idx info :
  exists pre, new_name idx info
    = pre ++ "_"%char :: str_of_nat idx ++ (splitext (basename (path info))).2.
Proof.
  unfold new_name. cbn zeta. change (lit "_") with ["_"%char].
  eexists (strftime_iso (date info) ++ ["_"%char]
           ++ or_else (location info) (lit "NoLocation") ++ ["_"%char]
           ++ basename (dirname (path info))).
  by rewrite <- !app_assoc.
Qed.

Lemma destination_shape output_folder idx info :
  exists pre, destination output_folder idx info
    = pre ++ "_"%char :: str_of_nat idx ++ (splitext (basename (path info))).2.
Proof.
  destruct (new_name_shape idx info) as [pre Hname].
  unfold destination, join. rewrite Hname.
  destruct (startswith _ _); [by exists pre|].
  destruct (_ || _).
  - exists (output_folder ++ pre). by rewrite <- app_assoc.
  - exists (output_folder ++ [sep] ++ pre). by rewrite <- !app_assoc.
Qed.

Lemma elem_of_first_seen h seen l x : x ∈ first_seen h seen l -> x ∈ l.
Proof.
  intros (_ & l1 & l2 & -> & _)%first_seen_spec.
  apply elem_of_app. right. by left.
Qed.

Lemma elem_of_candidates walk p :
  p ∈ candidates walk -> exists root file, p = join root file /\ is_image file = true.
Proof.
  unfold candidates.
  intros ([root fs] & (file & -> & Hfile)%list_elem_of_fmap & _)%list_elem_of_bind.
  apply list_elem_of_filter in Hfile as [Himg _]. by exists root, file.
Qed.

(** Every selected record is the record of a path that passed the filter. *)
Lemma selected_is_image w walk output_folder info :
  info ∈ selected_photos (main w walk output_folder) ->
  Forall non_digit (splitext (basename (path info))).2.
Proof.
  cbn [main selected_photos]. intros Hin%elem_of_select.
  rewrite scan_photo_info in Hin.
  apply list_elem_of_fmap in Hin as (p & -> & Hp%elem_of_first_seen).
  apply elem_of_candidates in Hp as (root & file & -> & Himg).
  by apply image_ext_no_digit.
Qed.

Section ranked_names.
Context (name_of : nat -> PhotoInfo -> str).
Hypothesis name_shape : forall idx info,
  exists pre, name_of idx info
    = pre ++ "_"%char :: str_of_nat idx ++ (splitext (basename (path info))).2.

(** Names that carry the rank in front of a digit-free extension differ
    when the ranks differ. *)
Lemma ranked_names_NoDup sel :
  (forall info, info ∈ sel -> Forall non_digit (splitext (basename (path info))).2) ->
  NoDup ((fun item => name_of item.1 item.2) <$> enumerate 1 sel).
Proof.
  intros Hsel. apply NoDup_alt. intros i j x Hi Hj.
  rewrite list_lookup_fmap in Hi, Hj.
  destruct (enumerate 1 sel !! i) as [[n a]|] eqn:Ei; [|done].
  destruct (enumerate 1 sel !! j) as [[m b]|] eqn:Ej; [|done].
  apply enumerate_lookup_inv in Ei as [Hn Ha], Ej as [Hm Hb].
  cbn [fst snd fmap option_fmap option_map] in *. simplify_eq.
  destruct (name_shape (1 + i) a) as [pa Hpa], (name_shape (1 + j) b) as [pb Hpb].
  assert (Hr : rank_digits (name_of (1 + i) a) = rank_digits (name_of (1 + j) b))
    by congruence.
  rewrite Hpa, Hpb in Hr.
  rewrite !rank_digits_name in Hr;
    try first [ apply str_of_nat_digits | apply str_of_nat_nonempty
              | apply Hsel; by eapply list_elem_of_lookup_2 ].
  apply str_of_nat_inj in Hr. lia.
Qed.
End ranked_names.

(** C9. The output names given to the selected records of a run (ISO date,
    location or [NoLocation], directory name, rank counted from 1,
    extension) are pairwise distinct, also when source file names coincide:
    the rank can be read back from a name, and ranks are distinct.  The same
    holds for the destination paths in the output folder. *)
Theorem assigned_names_are_distinct
    (w : World) (walk : list (str * list str)) (output_folder : str) :
  let r := main w walk output_folder in
  NoDup (assigned_names (selected_photos r))
  /\ NoDup ((fun item => destination output_folder item.1 item.2)
            <$> enumerate 1 (selected_photos r)).
Proof.
  intros r. split.
  - apply (ranked_names_NoDup new_name new_name_shape).
    intros info. apply selected_is_image.
  - apply (ranked_names_NoDup (destination output_folder)
             (destination_shape output_folder)).
    intros info. apply selected_is_image.
Qed.

(** Two files of the same name in different directories. *)
Example same_file_name_distinct_output :
  let w := sample_world [("/in/x/a.jpg", "AAA"); ("/in/y/a.jpg", "BBB")]%string [] [] [] in
  assigned_names (selected_photos
    (main w [(lit "/in/x", [lit "a.jpg"]); (lit "/in/y", [lit "a.jpg"])] (lit "/out")))
  = [lit "2024-06-01_NoLocation_x_1.jpg"; lit "2024-06-01_NoLocation_y_2.jpg"].
Proof. vm_compute. reflexivity. Qed.

(** Outside the extension filter of [main] the names can collide: an
    extension that carries an underscore and digits imitates a rank. *)
Example names_collide_without_filter :
  new_name 1 (mk_info (lit "/in/a/foo.x_7") 0 (mk_date 2024 6 1) None)
  = new_name 7 (mk_info (lit "/in/a_1.x/bar") 0 (mk_date 2024 6 1) None).
Proof. vm_compute. reflexivity. Qed.

(* ===================================================================== *)
(** * Further properties of the pipeline *)
(* ===================================================================== *)

(** ** Grouping is a partition *)

Lemma group_values_bind events info d :
  (events_append events d info) ≫= snd ≡ₚ (events ≫= snd) ++ [info].
Proof.
  induction events as [|[k v] events IH]; cbn [events_append]; [done|].
  destruct (decide (k = d)) as [->|Hne]; rewrite !bind_cons; cbn [snd].
  - rewrite <- !app_assoc. f_equiv. apply Permutation_app_comm.
  - by rewrite IH, app_assoc.
Qed.

Lemma group_values_perm l : group_photos_by_event l ≫= snd ≡ₚ l.
Proof.
  induction l as [|info l IH] using rev_ind; [done|].
  by rewrite group_snoc, group_values_bind, IH.
Qed.

Lemma group_nonempty l k v : (k, v) ∈ group_photos_by_event l -> v ≠ [].
Proof.
  intros Hin. pose proof (group_elem _ _ _ Hin) as ->.
  assert (Hk : k ∈ (group_photos_by_event l).*1).
  { apply list_elem_of_fmap. by exists (k, on_date k l). }
  apply group_keys_elem, list_elem_of_fmap in Hk as (r & -> & Hr).
  intros Hnil.
  assert (Hr' : r ∈ on_date (date r) l)
    by (unfold on_date; by apply list_elem_of_filter).
  rewrite Hnil in Hr'. by apply elem_of_nil in Hr'.
Qed.

Lemma group_own_date l r :
  r ∈ l -> (date r, on_date (date r) l) ∈ group_photos_by_event l.
Proof.
  intros Hr.
  assert (Hk : date r ∈ (group_photos_by_event l).*1).
  { apply group_keys_elem, list_elem_of_fmap. by exists r. }
  apply list_elem_of_fmap in Hk as ([k v] & Hk & Hin). cbn in Hk. subst k.
  by rewrite <- (group_elem _ _ _ Hin).
Qed.

(** X1. [group_photos_by_event] partitions the records by capture date:
    the keys are distinct, under a key stand exactly the records of that
    date in scan order (never an empty list), the record of every date is
    found under its date, and the groups together hold the records given,
    each as often as given. *)
Theorem group_is_a_partition (records : list PhotoInfo) :
  let events := group_photos_by_event records in
  NoDup events.*1
  /\ (forall k v, (k, v) ∈ events -> v = on_date k records /\ v ≠ [])
  /\ (forall r, r ∈ records -> (date r, on_date (date r) records) ∈ events)
  /\ events ≫= snd ≡ₚ records.
Proof.
  intros events. subst events.
  split; [apply group_keys_NoDup|]. split; [|split; [|apply group_values_perm]].
  - intros k v Hin. split; [by apply group_elem|by eapply group_nonempty].
  - apply group_own_date.
Qed.

(** ** The selection as a ranking *)

Lemma slice_to_take_drop {A} (n : Z) (l : list A) :
  exists m, slice_to n l = take m l /\ l = slice_to n l ++ drop m l.
Proof.
  unfold slice_to. destruct (0 <=? n)%Z; eexists; (split; [done|]);
    by rewrite take_drop.
Qed.

Lemma slice_sorted_descending n l : descending (slice_to n (sorted_desc l)).
Proof.
  destruct (slice_to_take_drop n (sorted_desc l)) as (m & _ & Hl).
  pose proof (sorted_desc_descending l) as Hs. unfold descending in *.
  rewrite Hl in Hs. by apply StronglySorted_app_1_l in Hs.
Qed.

(** A record left out by a slice of the sorted list does not beat a record
    that the slice keeps. *)
Lemma slice_sorted_keeps_the_best n l a b :
  a ∈ slice_to n (sorted_desc l) -> b ∈ l -> (score a < score b)%Z ->
  b ∈ slice_to n (sorted_desc l).
Proof.
  intros Ha Hb Hlt.
  destruct (slice_to_take_drop n (sorted_desc l)) as (m & _ & Hl).
  pose proof (sorted_desc_descending l) as Hs. unfold descending in Hs.
  apply elem_of_sorted_desc in Hb. rewrite Hl in Hb, Hs.
  apply elem_of_app in Hb as [Hb|Hb]; [done|].
  pose proof (StronglySorted_app_1_elem_of _ _ _ a b Hs Ha Hb) as Hle.
  cbn in Hle. lia.
Qed.

Lemma elem_of_pool_inv l n a :
  a ∈ pool (group_photos_by_event l) n ->
  a ∈ slice_to n (sorted_desc (on_date (date a) l)).
Proof.
  unfold pool. intros ([k v] & Ha & Hin)%list_elem_of_bind. cbn [snd] in Ha.
  apply group_elem in Hin as ->.
  assert (Hd : date a = k).
  { apply elem_of_slice_sorted in Ha. unfold on_date in Ha.
    by apply list_elem_of_filter in Ha as [? _]. }
  by rewrite Hd.
Qed.

Lemma slice_in_pool l n a d :
  a ∈ slice_to n (sorted_desc (on_date d l)) -> a ∈ pool (group_photos_by_event l) n.
Proof.
  intros Ha. unfold pool. apply list_elem_of_bind.
  exists (d, on_date d l). split; [done|].
  assert (Hal : a ∈ on_date d l) by (by apply elem_of_slice_sorted in Ha).
  unfold on_date in Hal. apply list_elem_of_filter in Hal as [<- Hal].
  by apply group_own_date.
Qed.

(** X2. Whatever the events and the limits, [select_top_photos] returns its
    records in descending order of score. *)
Theorem selection_is_in_descending_order
    (events : list (caldate * list PhotoInfo)) (N G : Z) :
  descending (select_top_photos events N G).
Proof. rewrite select_top_photos_pool. apply slice_sorted_descending. Qed.

(** X3. A record is never selected while a record of the same capture date
    with a higher score is left out. *)
Theorem better_record_of_the_date_is_selected
    (records : list PhotoInfo) (N G : Z) (a b : PhotoInfo) :
  a ∈ select_top_photos (group_photos_by_event records) N G ->
  b ∈ records -> date b = date a -> (score a < score b)%Z ->
  b ∈ select_top_photos (group_photos_by_event records) N G.
Proof.
  rewrite select_top_photos_pool. intros Ha Hb Hd Hlt.
  apply (slice_sorted_keeps_the_best _ _ a); [done| |done].
  apply elem_of_slice_sorted, elem_of_pool_inv in Ha.
  apply (slice_in_pool _ _ _ (date a)).
  apply (slice_sorted_keeps_the_best _ _ a); [done| |done].
  unfold on_date. by apply list_elem_of_filter.
Qed.

Lemma better_record_of_the_date_is_selected_witness :
  let a := mk_info (lit "/in/a.jpg") 10 (mk_date 2024 6 1) None in
  let b := mk_info (lit "/in/b.jpg") 90 (mk_date 2024 6 1) None in
  let c := mk_info (lit "/in/c.jpg") 50 (mk_date 2024 6 1) None in
  b ∈ select_top_photos (group_photos_by_event [a; b; c]) 2 150.
Proof.
  intros a b c.
  apply (better_record_of_the_date_is_selected [a; b; c] 2 150 c b).
  - apply (bool_decide_unpack _). vm_compute. exact I.
  - apply (bool_decide_unpack _). vm_compute. exact I.
  - reflexivity.
  - reflexivity.
Defined.

(** X4. In the global phase a per-event survivor is never left out in
    favour of a selected record with a lower score, whatever their dates. *)
Theorem better_survivor_is_selected
    (events : list (caldate * list PhotoInfo)) (N G : Z) (a b : PhotoInfo) :
  a ∈ select_top_photos events N G ->
  b ∈ pool events N -> (score a < score b)%Z ->
  b ∈ select_top_photos events N G.
Proof.
  rewrite select_top_photos_pool. intros Ha Hb Hlt.
  by apply (slice_sorted_keeps_the_best _ _ a).
Qed.

Lemma better_survivor_is_selected_witness :
  let a := mk_info (lit "/in/a.jpg") 95 (mk_date 2024 6 1) None in
  let b := mk_info (lit "/in/b.jpg") 40 (mk_date 2024 6 2) None in
  let c := mk_info (lit "/in/c.jpg") 80 (mk_date 2024 6 1) None in
  let d := mk_info (lit "/in/d.jpg") 90 (mk_date 2024 6 2) None in
  a ∈ select_top_photos (group_photos_by_event [a; b; c; d]) 2 2.
Proof.
  intros a b c d.
  apply (better_survivor_is_selected (group_photos_by_event [a; b; c; d]) 2 2 d a).
  - apply (bool_decide_unpack _). vm_compute. exact I.
  - apply (bool_decide_unpack _). vm_compute. exact I.
  - reflexivity.
Defined.

(** ** The selection is drawn from the records *)

Lemma bind_submseteq {A B} (f g : A -> list B) (l : list A) :
  (forall x, x ∈ l -> f x ⊆+ g x) -> l ≫= f ⊆+ l ≫= g.
Proof.
  induction l as [|x l IH]; intros Hfg; [done|].
  rewrite !bind_cons. apply submseteq_app.
  - apply Hfg. by left.
  - apply IH. intros y Hy. apply Hfg. by right.
Qed.

Lemma bind_perm {A B} (f g : A -> list B) (l : list A) :
  (forall x, x ∈ l -> f x ≡ₚ g x) -> l ≫= f ≡ₚ l ≫= g.
Proof.
  induction l as [|x l IH]; intros Hfg; [done|].
  rewrite !bind_cons. f_equiv.
  - apply Hfg. by left.
  - apply IH. intros y Hy. apply Hfg. by right.
Qed.

Lemma slice_sorted_submseteq n l : slice_to n (sorted_desc l) ⊆+ l.
Proof.
  etransitivity; [apply sublist_submseteq, prefix_sublist, slice_to_prefix|].
  apply Permutation_submseteq, sorted_desc_perm.
Qed.

Lemma pool_submseteq l n : pool (group_photos_by_event l) n ⊆+ l.
Proof.
  rewrite <- (group_values_perm l) at 2. unfold pool.
  apply bind_submseteq. intros [k v] _. apply slice_sorted_submseteq.
Qed.

(** X5. The selection is a sub-multiset of the records given: every
    selected record is one of them, and none is selected more often than it
    was given, so distinct records give a selection without repetition. *)
Theorem selection_is_drawn_from_the_records (records : list PhotoInfo) (N G : Z) :
  select_top_photos (group_photos_by_event records) N G ⊆+ records.
Proof.
  rewrite select_top_photos_pool.
  etransitivity; [apply slice_sorted_submseteq|apply pool_submseteq].
Qed.

Lemma slice_to_all {A} (n : Z) (l : list A) :
  (Z.of_nat (length l) <= n)%Z -> slice_to n l = l.
Proof.
  intros Hn. unfold slice_to.
  replace (0 <=? n)%Z with true by (symmetry; apply Z.leb_le; lia).
  apply take_ge. lia.
Qed.

(** X6. When no event holds more records than the per-event limit and the
    records are no more than the global limit, nothing is dropped: the
    selection is a rearrangement of the records given. *)
Theorem nothing_dropped_below_the_limits (records : list PhotoInfo) (N G : Z) :
  (forall d, (Z.of_nat (length (on_date d records)) <= N)%Z) ->
  (Z.of_nat (length records) <= G)%Z ->
  select_top_photos (group_photos_by_event records) N G ≡ₚ records.
Proof.
  intros HN HG. rewrite select_top_photos_pool.
  assert (Hpool : pool (group_photos_by_event records) N ≡ₚ records).
  { rewrite <- (group_values_perm records) at 2. unfold pool.
    apply bind_perm. intros [k v] Hin. cbn [snd].
    rewrite slice_to_all; [apply sorted_desc_perm|].
    rewrite sorted_desc_perm. apply group_elem in Hin as ->. apply HN. }
  rewrite slice_to_all; [by rewrite sorted_desc_perm|].
  by rewrite sorted_desc_perm, Hpool.
Qed.

Lemma nothing_dropped_below_the_limits_witness :
  let a := mk_info (lit "/in/a.jpg") 10 (mk_date 2024 6 1) None in
  let b := mk_info (lit "/in/b.jpg") 90 (mk_date 2024 6 2) None in
  select_top_photos (group_photos_by_event [a; b]) 1 2 ≡ₚ [a; b].
Proof.
  intros a b. apply (nothing_dropped_below_the_limits [a; b] 1 2).
  - intros d. unfold on_date. rewrite !filter_cons, filter_nil.
    destruct (decide (date a = d)) as [<-|?];
      [rewrite decide_False by discriminate|destruct (decide (date b = d))];
      cbn; lia.
  - cbn. lia.
Defined.

(** ** What the scan keeps *)

Lemma first_seen_sublist h seen l : first_seen h seen l `sublist_of` l.
Proof.
  revert seen. induction l as [|x l IH]; intros seen; cbn [first_seen]; [done|].
  case_bool_decide; [by apply sublist_cons|by apply sublist_skip].
Qed.

Lemma first_seen_hashes_NoDup h seen l : NoDup (h <$> first_seen h seen l).
Proof.
  revert seen. induction l as [|x l IH]; intros seen; cbn [first_seen]; [constructor|].
  case_bool_decide as Hx; [done|]. rewrite fmap_cons. apply NoDup_cons. split; [|done].
  intros (y & Hxy & Hy)%list_elem_of_fmap.
  apply first_seen_spec in Hy as [Hy _]. apply Hy. rewrite <- Hxy.
  apply elem_of_union. left. by apply elem_of_singleton.
Qed.

Lemma first_seen_covers h seen l p :
  p ∈ l -> h p ∈ seen \/ exists q, q ∈ first_seen h seen l /\ h q = h p.
Proof.
  revert seen. induction l as [|x l IH]; intros seen; [by intros ?%elem_of_nil|].
  cbn [first_seen]. intros [->|Hp]%elem_of_cons.
  - case_bool_decide; [by left|]. right. exists x. split; [by left|done].
  - case_bool_decide as Hx; [by apply IH|].
    destruct (IH ({[h x]} ∪ seen) Hp) as [[Hs|Hs]%elem_of_union|(q & Hq & Hqp)].
    + apply elem_of_singleton in Hs. right. exists x. split; [by left|done].
    + by left.
    + right. exists q. split; [by right|done].
Qed.

(** X7. The scan keeps the paths in scan order, keeps no two paths with the
    same fingerprint, and loses no fingerprint: every scanned path has a
    kept path with its fingerprint. *)
Theorem scan_keeps_each_fingerprint_once (w : World) (walk : list (str * list str)) :
  let kept := path <$> (scan w walk).1 in
  kept `sublist_of` candidates walk
  /\ NoDup (get_image_hash w <$> kept)
  /\ (forall p, p ∈ candidates walk ->
       exists q, q ∈ kept /\ get_image_hash w q = get_image_hash w p).
Proof.
  intros kept. subst kept. rewrite scan_photo_info, path_photo_of.
  split; [apply first_seen_sublist|]. split; [apply first_seen_hashes_NoDup|].
  intros p Hp.
  destruct (first_seen_covers (get_image_hash w) ∅ _ p Hp) as [Hs|?]; [|done].
  by apply elem_of_empty in Hs.
Qed.

(** ** Dates resolved by [get_image_date] *)

Lemma make_date_valid y m d x : make_date y m d = Some x -> valid_date x.
Proof.
  unfold valid_date. intros H. pose proof H as H'. unfold make_date in H'.
  destruct (_ && _); [|done]. injection H' as <-. exact H.
Qed.

Lemma make_datetime_date_valid y m d hh mm ss x :
  make_datetime_date y m d hh mm ss = Some x -> valid_date x.
Proof.
  unfold make_datetime_date. destruct (_ && _); [|done]. apply make_date_valid.
Qed.

Lemma strptime_Ymd_valid s d : strptime_Ymd s = Some d -> valid_date d.
Proof.
  unfold strptime_Ymd. do 9 (destruct s as [|? s]; try done).
  destruct (forallb _ _); [|done]. apply make_date_valid.
Qed.

Lemma strptime_Y_m_d_valid s d : strptime_Y_m_d s = Some d -> valid_date d.
Proof.
  unfold strptime_Y_m_d. do 11 (destruct s as [|? s]; try done).
  destruct (_ && _); [|done]. apply make_date_valid.
Qed.

Lemma strptime_YmdHMS_valid s d : strptime_YmdHMS s = Some d -> valid_date d.
Proof.
  unfold strptime_YmdHMS. do 15 (destruct s as [|? s]; try done).
  destruct (forallb _ _); [|done]. apply make_datetime_date_valid.
Qed.

Lemma strptime_exif_valid s d : strptime_exif s = Some d -> valid_date d.
Proof.
  unfold strptime_exif. intros H.
  repeat match type of H with
  | (?x ≫= _) = Some _ => destruct x as [?|] eqn:?; cbn in H; [|done]
  | (let '(_, _) := ?p in _) = Some _ => destruct p
  end.
  destruct (bool_decide _); [|done]. by eapply make_datetime_date_valid.
Qed.

(** X8. Whichever step of the chain answers, [get_image_date] returns a date
    of the calendar, given that the modification date is one. *)
Theorem get_image_date_is_a_calendar_date exif mtime image_path :
  valid_date mtime -> valid_date (get_image_date exif mtime image_path).
Proof.
  intros Hm. unfold get_image_date.
  destruct (exif_capture_date exif) as [d|] eqn:He.
  { unfold exif_capture_date in He.
    destruct exif as [items|]; [|done]. cbn in He.
    destruct (list_find is_capture_tag items) as [[? item]|]; [|done].
    by apply strptime_exif_valid in He. }
  cbn zeta.
  destruct (re_search pat_iso _) as [m|]; cbn.
  { destruct (strptime_Y_m_d m) eqn:E; [by apply strptime_Y_m_d_valid in E|].
    destruct (re_search (pat_digits 8) _) as [m8|]; cbn.
    - destruct (strptime_Ymd m8) eqn:E8; [by apply strptime_Ymd_valid in E8|].
      destruct (re_search (pat_digits 14) _) as [m14|]; cbn; [|done].
      destruct (strptime_YmdHMS m14) eqn:E14; [by apply strptime_YmdHMS_valid in E14|done].
    - destruct (re_search (pat_digits 14) _) as [m14|]; cbn; [|done].
      destruct (strptime_YmdHMS m14) eqn:E14; [by apply strptime_YmdHMS_valid in E14|done]. }
  destruct (re_search (pat_digits 8) _) as [m8|]; cbn.
  - destruct (strptime_Ymd m8) eqn:E8; [by apply strptime_Ymd_valid in E8|].
    destruct (re_search (pat_digits 14) _) as [m14|]; cbn; [|done].
    destruct (strptime_YmdHMS m14) eqn:E14; [by apply strptime_YmdHMS_valid in E14|done].
  - destruct (re_search (pat_digits 14) _) as [m14|]; cbn; [|done].
    destruct (strptime_YmdHMS m14) eqn:E14; [by apply strptime_YmdHMS_valid in E14|done].
Qed.

Lemma get_image_date_is_a_calendar_date_witness :
  valid_date (get_image_date None (mk_date 2023 2 28) (lit "/in/IMG_20240230.jpg")).
Proof.
  apply (get_image_date_is_a_calendar_date None (mk_date 2023 2 28)).
  vm_compute. reflexivity.
Defined.

(** ** Printing a parsed date *)














Lemma pat_iso_non_digit c s : non_digit c -> pat_iso (c :: s) = None.
Proof.
  intros Hc. unfold pat_iso. do 9 (destruct s as [|? s]; try done).
  cbn [forallb]. by rewrite Hc.
Qed.

Lemma re_search_iso_no_digit s : Forall non_digit s -> re_search pat_iso s = None.
Proof.
  induction 1 as [|c s Hc _ IH]; [done|].
  cbn [re_search]. by rewrite pat_iso_non_digit.
Qed.

Lemma re_search_digits_no_digit n s :
  0 < n -> Forall non_digit s -> re_search (pat_digits n) s = None.
Proof.
  intros Hn Hs. rewrite <- (app_nil_r s), re_search_digits_skip by done.
  cbn [re_search]. unfold pat_digits. destruct n; [lia|done].
Qed.

(** X10. When no EXIF capture tag resolves and the file name holds no
    digit, every file-name pattern fails and [get_image_date] returns the
    modification date of the file. *)
Theorem name_without_digits_gets_the_modification_date exif mtime image_path :
  exif_capture_date exif = None ->
  Forall non_digit (basename image_path) ->
  get_image_date exif mtime image_path = mtime.
Proof.
  intros Hexif Hname. unfold get_image_date. rewrite Hexif. cbn zeta.
  rewrite re_search_iso_no_digit by done. cbn.
  rewrite !re_search_digits_no_digit by (done || lia). done.
Qed.

Lemma name_without_digits_gets_the_modification_date_witness :
  get_image_date (Some [(271%N, lit "cam")]) (mk_date 2023 2 28) (lit "/in/2024/holiday.jpg")
  = mk_date 2023 2 28.
Proof.
  apply name_without_digits_gets_the_modification_date.
  - reflexivity.
  - vm_compute. repeat constructor.
Defined.

(** ** What the copy loop writes *)

Lemma copy_fold_lookup w out total items st x :
  (forall item, item ∈ items -> destination out item.1 item.2 ≠ x) ->
  (foldl (copy_one w out total) st items).1 !! x = st.1 !! x.
Proof.
  revert st. induction items as [|[idx info] items IH]; intros st Hx; [done|].
  cbn [foldl]. rewrite IH by (intros item ?; apply Hx; by right).
  unfold copy_one, copy2.
  destruct (st.1 !! path info); [|done].
  destruct (writable w _); [|done]. cbn [fst].
  apply lookup_insert_ne. apply (Hx (idx, info)). by left.
Qed.

Lemma elem_of_enumerate {A} (start : nat) (l : list A) item :
  item ∈ enumerate start l ->
  exists i, item.1 = start + i /\ l !! i = Some item.2.
Proof.
  intros (i & Hi)%list_elem_of_lookup_1. exists i.
  by apply enumerate_lookup_inv.
Qed.

(** X11. The copy loop writes nothing but destinations: a path that is the
    destination of no selected record holds after the loop what it held
    before; in particular no file is removed and no source is changed
    unless it is itself a destination. *)
Theorem copy_writes_only_destinations
    (w : World) (sel : list PhotoInfo) (output_folder : str)
    (fs : gmap str (list Byte.byte)) (x : str) :
  (forall i info, sel !! i = Some info -> destination output_folder (S i) info ≠ x) ->
  (copy_selected_photos w sel output_folder fs).1 !! x = fs !! x.
Proof.
  intros Hx. unfold copy_selected_photos.
  rewrite copy_fold_lookup; [done|].
  intros item (i & Hidx & Hinfo)%elem_of_enumerate. rewrite Hidx. by apply Hx.
Qed.

Lemma copy_writes_only_destinations_witness :
  (copy_selected_photos w1
     [mk_info (lit "/in/a.jpg") 10 (mk_date 2024 6 1) None] (lit "/out") (files w1)).1
    !! lit "/in/a.jpg"
  = files w1 !! lit "/in/a.jpg".
Proof.
  apply copy_writes_only_destinations.
  intros [|[|i]] info; cbn; intros [= <-]. vm_compute. discriminate.
Defined.

Lemma copy_one_success w out total st idx info fs' :
  copy2 w (path info) (destination out idx info) st.1 = Some fs' ->
  (copy_one w out total st (idx, info)).1 = fs'.
Proof. intros H. unfold copy_one. by rewrite H. Qed.

(** X12. In a run of [main] whose inputs are not destinations, a selected
    record with a readable source and a writable destination is reported as
    copied, and after the run its destination holds the bytes of its
    source, whatever happens to the other records. *)
Theorem copied_record_holds_the_source_bytes
    (w : World) (walk : list (str * list str)) (output_folder : str)
    (i : nat) (info : PhotoInfo) (b : list Byte.byte) :
  let r := main w walk output_folder in
  let dst := destination output_folder (S i) info in
  (forall a c j, a ∈ selected_photos r -> selected_photos r !! j = Some c ->
     path a ≠ destination output_folder (S j) c) ->
  selected_photos r !! i = Some info ->
  files w !! path info = Some b ->
  writable w dst = true ->
  output r !! i = Some (Copied (S i) (length (selected_photos r)) (path info) dst)
  /\ fs_after r !! dst = Some b.
Proof.
  intros r dst Hdisj Hinfo Hsrc Hw.
  set (sel := selected_photos r) in *.
  set (items := enumerate 1 sel).
  set (step := copy_one w output_folder (length sel)).
  assert (Hitem : items !! i = Some (S i, info)) by (by apply (enumerate_lookup 1)).
  assert (Hself : info ∈ sel) by (by eapply list_elem_of_lookup_2).
  (* the files seen by the record are those of the start *)
  assert (Hfs_i : (foldl step (files w, []) (take i items)).1 !! path info = Some b).
  { subst step. rewrite copy_fold_lookup; [done|].
    intros item Hitem'.
    assert (Hit : item ∈ items)
      by (eapply elem_of_prefix; [exact Hitem'|apply prefix_take]).
    apply elem_of_enumerate in Hit as (j & Hj & Hc). rewrite Hj.
    by apply not_eq_sym, Hdisj. }
  assert (Hcopy : copy2 w (path info) dst (foldl step (files w, []) (take i items)).1
                  = Some (<[dst := b]> (foldl step (files w, []) (take i items)).1)).
  { unfold copy2. by rewrite Hfs_i, Hw. }
  split.
  - change (output r) with (copy_selected_photos w sel output_folder (files w)).2.
    rewrite (copy_selected_line w sel output_folder (files w) i info Hinfo).
    unfold copy_line, copy_prefix. cbn [fst snd]. fold items step dst.
    by rewrite Hcopy.
  - change (fs_after r) with (copy_selected_photos w sel output_folder (files w)).1.
    unfold copy_selected_photos. fold items step.
    rewrite <- (take_drop_middle items i _ Hitem), foldl_app. cbn [foldl].
    subst step. rewrite copy_fold_lookup.
    + rewrite (copy_one_success _ _ _ _ _ _ _ Hcopy). apply lookup_insert_eq.
    + intros item Hitem'.
      assert (Hnd : NoDup ((fun item => destination output_folder item.1 item.2)
                           <$> items)).
      { apply (ranked_names_NoDup (destination output_folder)
                 (destination_shape output_folder)).
        intros info'. apply selected_is_image. }
      rewrite <- (take_drop_middle items i _ Hitem), fmap_app, fmap_cons in Hnd.
      apply NoDup_app in Hnd as (_ & _ & [Hnd _]%NoDup_cons).
      intros Heq. apply Hnd. apply list_elem_of_fmap. by exists item.
Qed.

Lemma copied_record_holds_the_source_bytes_witness :
  let r := main w1 [(lit "/in", [lit "a.jpg"; lit "b.jpg"; lit "c.JPG"])] (lit "/out") in
  fs_after r !! lit "/out/2024-06-01_NoLocation_in_1.jpg" = Some (bytes_of "BBB").
Proof.
  intros r.
  assert (Hsel : selected_photos r
                 = [ mk_info (lit "/in/b.jpg") 90 (mk_date 2024 6 1) None;
                     mk_info (lit "/in/a.jpg") 10 (mk_date 2024 6 1) None ])
    by (vm_compute; reflexivity).
  refine (proj2 (copied_record_holds_the_source_bytes w1
            [(lit "/in", [lit "a.jpg"; lit "b.jpg"; lit "c.JPG"])] (lit "/out")
            0 (mk_info (lit "/in/b.jpg") 90 (mk_date 2024 6 1) None)
            (bytes_of "BBB") _ _ _ _)).
  - fold r. rewrite Hsel. intros a c j Ha Hc.
    destruct j as [|[|j]]; cbn in Hc; simplify_eq;
      apply elem_of_cons in Ha as [->|Ha];
      try (apply list_elem_of_singleton in Ha as ->);
      vm_compute; discriminate.
  - fold r. by rewrite Hsel.
  - vm_compute. reflexivity.
  - vm_compute. reflexivity.
Defined.

(** ** [copy_all_images] *)

Example copy_all_images_w1 :
  let st := copy_all_images w1
              [(lit "/in", [lit "a.jpg"; lit "b.jpg"; lit "notes.txt"; lit "c.JPG"])]
              (lit "/out") in
  ca_idx st = 4
  /\ ca_out st
     = [ CopiedAll 1 (lit "/in/a.jpg") (lit "/out/2024-06-01_NoLocation_in_1.jpg");
         CopiedAll 2 (lit "/in/b.jpg") (lit "/out/2024-06-01_NoLocation_in_2.jpg");
         CopiedAll 3 (lit "/in/c.JPG") (lit "/out/2024-06-01_NoLocation_in_3.JPG") ].
Proof. vm_compute. split; reflexivity. Qed.

Lemma image_file_ext_no_digit file :
  is_image file = true -> Forall non_digit (splitext file).2.
Proof.
  intros (letters & Htail & Hdot & Hletters)%is_image_tail.
  destruct (splitext_ext file) as [->|(t & Hext & Ht & Hsuf)]; [constructor|].
  rewrite Hext in *.
  assert (extsep :: t = extsep :: letters) as ->.
  { destruct (suffix_weak_total _ _ _ Hsuf Htail) as [H|H];
      apply suffix_cons_inv in H as [H|H]; try done.
    - exfalso. apply Hdot. eapply elem_of_suffix; [|exact H]. by left.
    - exfalso. apply Ht. eapply elem_of_suffix; [|exact H]. by left. }
  constructor; [reflexivity|done].
Qed.

Lemma name_all_shape w root file idx :
  exists pre, name_all w root file idx
    = pre ++ "_"%char :: str_of_nat idx ++ (splitext file).2.
Proof.
  unfold name_all. cbn zeta. change (lit "_") with ["_"%char].
  eexists (strftime_iso _ ++ ["_"%char] ++ or_else _ (lit "NoLocation")
           ++ ["_"%char] ++ basename root).
  by rewrite <- !app_assoc.
Qed.

Lemma join_name_all_rank w out root file idx :
  is_image file = true ->
  rank_digits (join out (name_all w root file idx)) = str_of_nat idx.
Proof.
  intros Himg. destruct (name_all_shape w root file idx) as [pre Hname].
  assert (Hshape : exists pre', join out (name_all w root file idx)
            = pre' ++ "_"%char :: str_of_nat idx ++ (splitext file).2).
  { unfold join. rewrite Hname. destruct (startswith _ _); [by exists pre|].
    destruct (_ || _).
    - exists (out ++ pre). by rewrite <- app_assoc.
    - exists (out ++ [sep] ++ pre). by rewrite <- !app_assoc. }
  destruct Hshape as [pre' ->].
  apply rank_digits_name;
    [apply str_of_nat_digits|apply str_of_nat_nonempty|by apply image_file_ext_no_digit].
Qed.

Lemma copy_all_added_refl st : copy_all_added st st [].
Proof.
  split; [done|]. exists []. rewrite app_nil_r, Nat.sub_diag.
  repeat split; try done. by intros ??? ?%elem_of_nil.
Qed.

Lemma copy_all_added_trans st1 st2 st3 s1 s2 :
  copy_all_added st1 st2 s1 -> copy_all_added st2 st3 s2 ->
  copy_all_added st1 st3 (s1 ++ s2).
Proof.
  intros (H12 & a1 & Ho1 & Hs1 & Hr1 & Hd1) (H23 & a2 & Ho2 & Hs2 & Hr2 & Hd2).
  split; [lia|]. exists (a1 ++ a2). split; [|split; [|split]].
  - by rewrite Ho2, Ho1, app_assoc.
  - by rewrite fmap_app, Hs1, Hs2.
  - rewrite omap_app, Hr1, Hr2.
    replace (ca_idx st3 - ca_idx st1)
      with ((ca_idx st2 - ca_idx st1) + (ca_idx st3 - ca_idx st2)) by lia.
    rewrite seq_app. do 2 f_equal. lia.
  - intros idx src dst [?|?]%elem_of_app; eauto.
Qed.

Lemma copy_all_file_added w out root st file :
  copy_all_added st (copy_all_file w out root st file)
    (if is_image file then [join root file] else []).
Proof.
  unfold copy_all_file. destruct (is_image file) eqn:Himg; [|apply copy_all_added_refl].
  destruct (copy2 _ _ _ _); (split; [cbn; lia|]); eexists; cbn [ca_out ca_idx];
    (split; [done|]); (split; [done|]); split.
  - replace (S (ca_idx st) - ca_idx st) with 1 by lia. done.
  - intros idx src dst [= -> -> ->]%list_elem_of_singleton.
    by apply join_name_all_rank.
  - by rewrite Nat.sub_diag.
  - by intros idx src dst [=]%list_elem_of_singleton.
Qed.

Lemma copy_all_dir_added w out st root fs :
  copy_all_added st (foldl (copy_all_file w out root) st fs)
    (join root <$> filter (fun f => is_image f = true) fs).
Proof.
  revert st. induction fs as [|f fs IH]; intros st; [apply copy_all_added_refl|].
  cbn [foldl]. rewrite filter_cons.
  pose proof (copy_all_file_added w out root st f) as Hf.
  destruct (is_image f) eqn:E.
  - rewrite decide_True by done. rewrite fmap_cons.
    change (join root f :: ?l) with ([join root f] ++ l).
    eapply copy_all_added_trans; [exact Hf|apply IH].
  - rewrite decide_False by done.
    change (join root <$> ?l) with ([] ++ (join root <$> l)).
    eapply copy_all_added_trans; [exact Hf|apply IH].
Qed.

Lemma copy_all_walk_added w out st walk :
  copy_all_added st (foldl (copy_all_dir w out) st walk) (candidates walk).
Proof.
  revert st. induction walk as [|[root fs] walk IH]; intros st;
    [apply copy_all_added_refl|].
  cbn [foldl]. unfold candidates. rewrite bind_cons.
  eapply copy_all_added_trans; [apply copy_all_dir_added|apply IH].
Qed.

(** X13. [copy_all_images] prints one line per image file of the walk, in
    walk order and without regard to content (nothing is deduplicated); the
    lines of the copies carry the ranks 1, 2, ... without gap, a failed copy
    taking no rank, and the counter ends one above the number of copies. *)
Theorem copy_all_images_numbers_the_copies
    (w : World) (walk : list (str * list str)) (output_folder : str) :
  let st := copy_all_images w walk output_folder in
  line_all_src <$> ca_out st = candidates walk
  /\ omap line_all_rank (ca_out st) = seq 1 (ca_idx st - 1)
  /\ ca_idx st = S (length (omap line_all_rank (ca_out st))).
Proof.
  intros st. subst st. unfold copy_all_images.
  destruct (copy_all_walk_added w output_folder
              {| ca_idx := 1; ca_fs := files w; ca_out := [] |} walk)
    as (Hidx & added & Hout & Hsrc & Hrank & _).
  cbn [ca_idx ca_out] in *. rewrite Hout. cbn [app].
  split; [done|]. split; [done|]. rewrite Hrank, length_seq. lia.
Qed.

(** X14. The destinations of the copies of [copy_all_images] are pairwise
    distinct: the rank can be read back from a destination, and no rank is
    given twice. *)
Theorem copy_all_images_destinations_distinct
    (w : World) (walk : list (str * list str)) (output_folder : str) :
  NoDup (omap line_all_dst (ca_out (copy_all_images w walk output_folder))).
Proof.
  unfold copy_all_images.
  destruct (copy_all_walk_added w output_folder
              {| ca_idx := 1; ca_fs := files w; ca_out := [] |} walk)
    as (_ & added & Hout & _ & Hrank & Hdst).
  cbn [ca_idx ca_out] in *. rewrite Hout. cbn [app].
  apply (NoDup_fmap_1 rank_digits).
  assert (Heq : rank_digits <$> omap line_all_dst added
                = str_of_nat <$> omap line_all_rank added).
  { clear Hrank Hout. induction added as [|ln added IH]; [done|].
    assert (Hrest : forall idx src dst, CopiedAll idx src dst ∈ added ->
              rank_digits dst = str_of_nat idx)
      by (intros ??? ?; eapply Hdst; by right).
    destruct ln as [idx src dst|src]; cbn [omap list_omap line_all_dst line_all_rank].
    - change (list_omap ?f ?l) with (omap f l). rewrite !fmap_cons, IH by done.
      f_equal. eapply Hdst. by left.
    - change (list_omap ?f ?l) with (omap f l). by apply IH. }
  rewrite Heq, Hrank.
  apply NoDup_fmap_2; [|apply NoDup_seq].
  intros n m. apply str_of_nat_inj.
Qed.

(** ** Joining and splitting paths *)

Lemma rfind_last c l1 l2 : c ∉ l2 -> rfind c (l1 ++ c :: l2) = Z.of_nat (length l1).
Proof.
  intros Hc. destruct (rfind_spec c (l1 ++ c :: l2)) as [[_ Hn]|(k1 & k2 & Heq & -> & Hk2)].
  - exfalso. apply Hn. apply elem_of_app. right. by left.
  - by apply not_elem_of_app_cons_inv_r in Heq as (-> & _ & _).
Qed.

Lemma rfind_absent c s : c ∉ s -> rfind c s = (-1)%Z.
Proof.
  intros Hc. destruct (rfind_spec c s) as [[? _]|(k1 & k2 & -> & _ & _)]; [done|].
  exfalso. apply Hc. apply elem_of_app. right. by left.
Qed.

Lemma startswith_sep_false file : sep ∉ file -> startswith file [sep] = false.
Proof.
  intros Hs. unfold startswith. apply bool_decide_eq_false.
  destruct file as [|c file]; [done|]. cbn. intros [= ->]. apply Hs. by left.
Qed.

Lemma not_endswith_sep root :
  root ≠ [] -> endswith root [sep] = false ->
  exists r x, root = r ++ [x] /\ x ≠ sep.
Proof.
  destruct root as [|x root _] using rev_ind; [done|]. intros _ He.
  exists root, x. split; [done|]. intros ->.
  unfold endswith in He. rewrite length_app in He. cbn [length] in He.
  replace (length root + 1 - 1) with (length root) in He by lia.
  rewrite drop_app_length in He.
  rewrite bool_decide_eq_true_2 in He by done.
  replace (1 <=? length root + 1) with true in He
    by (symmetry; apply Nat.leb_le; lia).
  done.
Qed.

(** What [join] builds from a directory and a file name. *)
Lemma join_cases root file :
  sep ∉ file -> endswith root [sep] = false ->
  (root = [] /\ join root file = file)
  \/ (exists r x, root = r ++ [x] /\ x ≠ sep /\ join root file = root ++ sep :: file).
Proof.
  intros Hf He. unfold join. rewrite (startswith_sep_false _ Hf), He.
  destruct (decide (root = [])) as [->|Hne].
  - left. by rewrite bool_decide_eq_true_2.
  - right. rewrite bool_decide_eq_false_2 by done. cbn.
    destruct (not_endswith_sep root Hne He) as (r & x & -> & Hx).
    by exists r, x.
Qed.

Lemma basename_join root file :
  sep ∉ file -> endswith root [sep] = false -> basename (join root file) = file.
Proof.
  intros Hf He. unfold basename.
  destruct (join_cases root file Hf He) as [[-> ->]|(r & x & -> & Hx & ->)].
  - by rewrite rfind_absent.
  - rewrite rfind_last by done.
    replace (Z.to_nat (Z.of_nat (length (r ++ [x])) + 1))
      with (length ((r ++ [x]) ++ [sep]))
      by (rewrite (length_app _ [sep]); cbn; lia).
    replace ((r ++ [x]) ++ sep :: file) with (((r ++ [x]) ++ [sep]) ++ file)
      by (by rewrite <- app_assoc).
    by rewrite drop_app_length.
Qed.

Lemma dirname_join root file :
  sep ∉ file -> endswith root [sep] = false -> dirname (join root file) = root.
Proof.
  intros Hf He. unfold dirname.
  destruct (join_cases root file Hf He) as [[-> ->]|(r & x & -> & Hx & ->)].
  - by rewrite rfind_absent.
  - rewrite rfind_last by done.
    assert (Hhead : take (Z.to_nat (Z.of_nat (length (r ++ [x])) + 1))
                      ((r ++ [x]) ++ sep :: file) = (r ++ [x]) ++ [sep]).
    { replace ((r ++ [x]) ++ sep :: file) with (((r ++ [x]) ++ [sep]) ++ file)
        by (by rewrite <- app_assoc).
      replace (Z.to_nat (Z.of_nat (length (r ++ [x])) + 1))
        with (length ((r ++ [x]) ++ [sep]))
        by (rewrite (length_app _ [sep]); cbn; lia).
      by rewrite take_app_length. }
    rewrite Hhead. cbn zeta.
    rewrite bool_decide_eq_false_2 by (by destruct r).
    rewrite bool_decide_eq_false_2.
    2:{ intros Hrep.
        assert (Hin : x ∈ (r ++ [x]) ++ [sep])
          by (rewrite !elem_of_app, !list_elem_of_singleton; auto).
        rewrite Hrep in Hin. by apply elem_of_replicate in Hin as [? _]. }
    cbn [negb andb]. unfold rstrip_sep.
    rewrite !rev_app_distr. cbn [rev app drop_while].
    rewrite bool_decide_eq_true_2 by done.
    rewrite bool_decide_eq_false_2 by done.
    cbn [rev]. by rewrite rev_involutive.
Qed.

(** X15. For a file name without separator in a directory whose path does
    not end with a separator, [copy_all_images] and [copy_selected_photos]
    build the same name at the same rank: the directory name and the
    extension that [copy_selected_photos] recovers from the joined path are
    those of the directory and the file that were joined. *)
Theorem both_entry_points_build_the_same_name
    (w : World) (root file : str) (idx : nat) :
  sep ∉ file -> endswith root [sep] = false ->
  basename (join root file) = file
  /\ dirname (join root file) = root
  /\ name_all w root file idx = new_name idx (photo_of w (join root file)).
Proof.
  intros Hf He. split; [by apply basename_join|]. split; [by apply dirname_join|].
  unfold name_all, new_name, photo_of. cbn [path date location].
  by rewrite dirname_join, basename_join.
Qed.

Lemma both_entry_points_build_the_same_name_witness :
  name_all w1 (lit "/in/x") (lit "a.jpg") 2
  = new_name 2 (photo_of w1 (join (lit "/in/x") (lit "a.jpg"))).
Proof.
  apply (both_entry_points_build_the_same_name w1 (lit "/in/x") (lit "a.jpg") 2).
  - apply (bool_decide_unpack _). vm_compute. exact I.
  - reflexivity.
Defined.

(** With a trailing separator on the directory the two names differ. *)
Example trailing_separator_changes_the_folder_name :
  name_all w1 (lit "/in/") (lit "a.jpg") 1 = lit "2024-06-01_NoLocation__1.jpg"
  /\ new_name 1 (photo_of w1 (join (lit "/in/") (lit "a.jpg")))
     = lit "2024-06-01_NoLocation_in_1.jpg".
Proof. vm_compute. split; reflexivity. Qed.

(** ** [categorise_photos.py]: the face bonus and the destinations *)

Lemma categorise_scan_paths w fc dir listing pi :
  CategorisePhotos.scan w fc dir listing = Some pi ->
  path <$> pi = join dir <$> filter (fun f => is_image f = true) listing.
Proof.
  intros Hscan. apply (mapM_fmap_Some_inv _ path _ _ Hscan).
  intros x y. unfold CategorisePhotos.photo_of.
  destruct (CategorisePhotos.has_face_match fc x); [|done]. by intros [= <-].
Qed.

Lemma categorise_scan_scores w fc dir listing pi r :
  CategorisePhotos.scan w fc dir listing = Some pi -> r ∈ pi ->
  exists m, CategorisePhotos.has_face_match fc (path r) = Some m
    /\ score r = CategorisePhotos.combined_score (score_image_quality w (path r)) m.
Proof.
  intros Hscan%mapM_Some_1 (i & Hi)%list_elem_of_lookup_1.
  destruct (Forall2_lookup_r _ _ _ _ _ Hscan Hi) as (x & _ & Hx).
  unfold CategorisePhotos.photo_of in Hx.
  destruct (CategorisePhotos.has_face_match fc x) as [m|] eqn:Hm; [|done].
  injection Hx as <-. by exists m.
Qed.

(** A record of the date with a higher score survives the per-event phase
    whenever a record with a lower score does. *)
Lemma pool_keeps_the_best l n a b :
  a ∈ pool (group_photos_by_event l) n ->
  b ∈ l -> date b = date a -> (score a < score b)%Z ->
  b ∈ pool (group_photos_by_event l) n.
Proof.
  intros Ha%elem_of_pool_inv Hb Hd Hlt.
  apply (slice_in_pool _ _ _ (date a)).
  apply (slice_sorted_keeps_the_best _ _ a); [done| |done].
  unfold on_date. by apply list_elem_of_filter.
Qed.

(** X16. In [categorise_photos.py] a face match outranks quality: among the
    records of one date, a record with a face match is never left out while
    a record without one is selected, as long as the quality scores lie
    between 0 and 1000. *)
Theorem face_match_outranks_quality
    (w : World) (fc : CategorisePhotos.Faces) (input_folder : str) (listing : list str)
    (pi : list PhotoInfo) (N : Z) (a b : PhotoInfo) :
  CategorisePhotos.scan w fc input_folder listing = Some pi ->
  a ∈ Categorise.select_top_photos (group_photos_by_event pi) N ->
  b ∈ pi -> date b = date a ->
  CategorisePhotos.has_face_match fc (path a) = Some false ->
  CategorisePhotos.has_face_match fc (path b) = Some true ->
  (score_image_quality w (path a) < 1000)%Z ->
  (0 <= score_image_quality w (path b))%Z ->
  b ∈ Categorise.select_top_photos (group_photos_by_event pi) N.
Proof.
  rewrite categorise_select_pool. intros Hscan Ha Hb Hd Hfa Hfb Hqa Hqb.
  apply (pool_keeps_the_best _ _ a); [done..|].
  assert (Hain : a ∈ pi) by (by eapply elem_of_pool).
  destruct (categorise_scan_scores _ _ _ _ _ a Hscan Hain) as (ma & Hma & ->).
  destruct (categorise_scan_scores _ _ _ _ _ b Hscan Hb) as (mb & Hmb & ->).
  rewrite Hfa in Hma. rewrite Hfb in Hmb. simplify_eq.
  unfold CategorisePhotos.combined_score. lia.
Qed.

Lemma face_match_outranks_quality_witness :
  mk_info (lit "/in/b.jpg") 1090 (mk_date 2024 6 1) None
  ∈ Categorise.select_top_photos
      (group_photos_by_event
         [ mk_info (lit "/in/a.jpg") 10 (mk_date 2024 6 1) None;
           mk_info (lit "/in/b.jpg") 1090 (mk_date 2024 6 1) None;
           mk_info (lit "/in/c.JPG") 50 (mk_date 2024 6 1) None ]) 2.
Proof.
  apply (face_match_outranks_quality w1 (sample_faces ["/in/b.jpg"%string])
           (lit "/in") [lit "a.jpg"; lit "b.jpg"; lit "c.JPG"] _ 2
           (mk_info (lit "/in/c.JPG") 50 (mk_date 2024 6 1) None)).
  - vm_compute. reflexivity.
  - apply (bool_decide_unpack _). vm_compute. exact I.
  - apply (bool_decide_unpack _). vm_compute. exact I.
  - reflexivity.
  - vm_compute. reflexivity.
  - vm_compute. reflexivity.
  - vm_compute. reflexivity.
  - vm_compute. discriminate.
Defined.

Lemma endswith_sep_inv a : endswith a [sep] = true -> exists r, a = r ++ [sep].
Proof.
  unfold endswith. intros [Hlen Hd%bool_decide_eq_true]%andb_true_iff.
  apply Nat.leb_le in Hlen. cbn [length] in *.
  exists (take (length a - 1) a). by rewrite <- Hd at 1; rewrite take_drop.
Qed.

(** What [join] puts before a name without separator depends on the folder
    only, and is empty or ends with the separator. *)
Lemma join_shape a :
  exists p, (p = [] \/ exists r, p = r ++ [sep])
    /\ forall f, sep ∉ f -> join a f = p ++ f.
Proof.
  destruct (decide (a = [])) as [->|Hne].
  { exists []. split; [by left|]. intros f Hf. unfold join.
    by rewrite (startswith_sep_false _ Hf). }
  destruct (endswith a [sep]) eqn:He.
  - exists a. split; [right; by apply endswith_sep_inv|].
    intros f Hf. unfold join. rewrite (startswith_sep_false _ Hf), He.
    by rewrite orb_true_r.
  - exists (a ++ [sep]). split; [right; by exists a|].
    intros f Hf. unfold join. rewrite (startswith_sep_false _ Hf), He.
    rewrite bool_decide_eq_false_2 by done. cbn [orb]. by rewrite (assoc_L (++)).
Qed.

Lemma basename_after_folder p f :
  (p = [] \/ exists r, p = r ++ [sep]) -> sep ∉ f -> basename (p ++ f) = f.
Proof.
  intros [->|[r ->]] Hf; unfold basename.
  - by rewrite rfind_absent.
  - rewrite <- (assoc_L (++)). cbn [app]. rewrite rfind_last by done.
    replace (Z.to_nat (Z.of_nat (length r) + 1)) with (length (r ++ [sep]))
      by (rewrite length_app; cbn [length]; lia).
    replace (r ++ sep :: f) with ((r ++ [sep]) ++ f) by by rewrite <- (assoc_L (++)).
    by rewrite drop_app_length.
Qed.

Lemma basename_join_name a f : sep ∉ f -> basename (join a f) = f.
Proof.
  intros Hf. destruct (join_shape a) as (p & Hp & Hj).
  rewrite Hj by done. by apply basename_after_folder.
Qed.

Lemma join_name_inj a f g : sep ∉ f -> sep ∉ g -> join a f = join a g -> f = g.
Proof.
  intros Hf Hg. destruct (join_shape a) as (p & _ & Hj).
  rewrite !Hj by done. by intros ?%(inj (p ++.)).
Qed.

Lemma submseteq_NoDup_l {A} (l k : list A) : l ⊆+ k -> NoDup k -> NoDup l.
Proof.
  intros (k' & Hk)%submseteq_Permutation. rewrite Hk.
  by intros (? & _ & _)%NoDup_app.
Qed.

Lemma categorise_scan_destinations w fc dir listing pi out :
  CategorisePhotos.scan w fc dir listing = Some pi ->
  (forall f, f ∈ listing -> sep ∉ f) ->
  CategorisePhotos.destination out <$> pi
  = join out <$> filter (fun f => is_image f = true) listing.
Proof.
  intros Hscan Hnames.
  change (CategorisePhotos.destination out)
    with ((fun p => join out (basename p)) ∘ path).
  rewrite list_fmap_compose, (categorise_scan_paths _ _ _ _ _ Hscan).
  rewrite <- list_fmap_compose. apply list_fmap_ext.
  intros _ f [_ Hf]%list_elem_of_lookup_2%list_elem_of_filter. cbn.
  by rewrite basename_join_name by by apply Hnames.
Qed.

(** X17. In [categorise_photos.py] every photograph is copied under its
    own file name, and since the photographs come from one directory
    listing, no two selected photographs share a destination: no copy
    overwrites another. *)
Theorem categorise_destinations_are_distinct
    (w : World) (fc : CategorisePhotos.Faces) (input_folder output_folder : str)
    (listing : list str) (r : CategorisePhotos.Run) :
  CategorisePhotos.main w fc input_folder listing output_folder = Some r ->
  NoDup listing ->
  (forall f, f ∈ listing -> sep ∉ f) ->
  NoDup (CategorisePhotos.destination output_folder
           <$> CategorisePhotos.selected_photos r).
Proof.
  unfold CategorisePhotos.main. intros Hmain Hnd Hnames.
  destruct (CategorisePhotos.scan w fc input_folder listing) as [pi|] eqn:Hscan;
    [|done].
  cbn in Hmain. injection Hmain as <-. cbn [CategorisePhotos.selected_photos].
  rewrite categorise_select_pool.
  apply (submseteq_NoDup_l _ (CategorisePhotos.destination output_folder <$> pi)).
  { apply fmap_submseteq, pool_submseteq. }
  rewrite (categorise_scan_destinations _ _ _ _ _ _ Hscan Hnames).
  apply NoDup_fmap_2_strong; [|by apply NoDup_filter].
  intros f g [_ Hf]%list_elem_of_filter [_ Hg]%list_elem_of_filter.
  apply join_name_inj; by apply Hnames.
Qed.

Lemma categorise_destinations_are_distinct_witness :
  exists r,
    CategorisePhotos.main w1 (sample_faces ["/in/b.jpg"%string]) (lit "/in")
      [lit "a.jpg"; lit "b.jpg"; lit "c.JPG"; lit "notes.txt"] (lit "/out") = Some r
    /\ NoDup (CategorisePhotos.destination (lit "/out")
                <$> CategorisePhotos.selected_photos r).
Proof.
  eexists. split; [vm_compute; reflexivity|].
  apply (categorise_destinations_are_distinct w1 (sample_faces ["/in/b.jpg"%string])
           (lit "/in") (lit "/out")
           [lit "a.jpg"; lit "b.jpg"; lit "c.JPG"; lit "notes.txt"]).
  - vm_compute. reflexivity.
  - apply (bool_decide_unpack _). vm_compute. exact I.
  - apply (Forall_forall (fun f => sep ∉ f)).
    apply (bool_decide_unpack _). vm_compute. exact I.
Defined.

(** X18. Run with the output folder equal to the input folder,
    [categorise_photos.py] saves every selected photograph over itself:
    the destination of a photograph is its own path. *)
Theorem categorise_in_place_overwrites_the_source
    (w : World) (fc : CategorisePhotos.Faces) (folder : str)
    (listing : list str) (r : CategorisePhotos.Run) (info : PhotoInfo) :
  CategorisePhotos.main w fc folder listing folder = Some r ->
  (forall f, f ∈ listing -> sep ∉ f) ->
  info ∈ CategorisePhotos.selected_photos r ->
  CategorisePhotos.destination folder info = path info.
Proof.
  unfold CategorisePhotos.main. intros Hmain Hnames.
  destruct (CategorisePhotos.scan w fc folder listing) as [pi|] eqn:Hscan; [|done].
  cbn in Hmain. injection Hmain as <-. cbn [CategorisePhotos.selected_photos].
  rewrite categorise_select_pool. intros Hin%elem_of_pool.
  assert (Hp : path info ∈ path <$> pi) by by apply list_elem_of_fmap_2.
  rewrite (categorise_scan_paths _ _ _ _ _ Hscan) in Hp.
  apply list_elem_of_fmap in Hp as (f & Hpath & [_ Hf]%list_elem_of_filter).
  unfold CategorisePhotos.destination. rewrite Hpath.
  by rewrite basename_join_name by by apply Hnames.
Qed.

Lemma categorise_in_place_overwrites_the_source_witness :
  CategorisePhotos.destination (lit "/in")
    (mk_info (lit "/in/b.jpg") 1090 (mk_date 2024 6 1) None) = lit "/in/b.jpg".
Proof.
  eapply (categorise_in_place_overwrites_the_source w1
            (sample_faces ["/in/b.jpg"%string]) (lit "/in")
            [lit "a.jpg"; lit "b.jpg"; lit "c.JPG"]).
  - vm_compute. reflexivity.
  - apply (Forall_forall (fun f => sep ∉ f)).
    apply (bool_decide_unpack _). vm_compute. exact I.
  - apply (bool_decide_unpack _). vm_compute. exact I.
Defined.
